(** * Multi-armed bandit policies of [mab.py]: a shallow embedding

    The Python module defines five classes: [MAB] (sample average),
    [UCB1] (upper confidence bound, a subclass of [MAB]), [TS] (Thompson
    sampling), [SoftMax] (Boltzmann exploration, a subclass of [MAB]) and
    [CMAB] (one [UCB1] per context).

    Modelling choices.
    - Python numbers that hold rewards and estimates are real numbers
      ([R]); counters are integers ([Z]).  The rounding of binary
      floating point is outside the model.  Where the module leaves the
      range of binary64 through [math.exp], the model follows it:
      [math.exp] raises [OverflowError] above the greatest float and
      returns 0.0 below the least one, and a sum of weights beyond the
      greatest float is infinite.  [TS64] gives the two arithmetic
      methods of [TS] over binary64 itself, for float rewards.
    - A Python [dict] is an association list in insertion order: writing
      to a present key keeps its position, writing to an absent key
      appends.  This is the order [for k in d] and [d.items()] follow.
    - A method is a computation in a state-and-exception monad: it
      receives the object, and returns either a value or the exception
      raised, together with the object as the method left it.  The
      exceptions that the arithmetic and the dictionary accesses of the
      module can raise are modelled ([KeyError], [ZeroDivisionError],
      [ValueError], [IndexError], [OverflowError]).
    - The generator behind [random.betavariate] and [random.choices] is
      a value of an abstract type, kept beside the attributes of the
      objects that draw from it; what it draws is not constrained beyond
      what the statements assume.

    The file gives the embedding of the five classes, then the
    vocabulary of the statements, then the lemmas and the theorems. *)

From Stdlib Require Import Floats.
From Stdlib Require Import Reals Lra Lia List String Bool ZArith.
Import ListNotations.
Local Open Scope R_scope.

Set Implicit Arguments.

(** ** Keys with decidable equality (Python hashables) *)

Class EqDec (K : Type) := eq_dec : forall x y : K, {x = y} + {x <> y}.

#[export] Instance string_EqDec : EqDec string := string_dec.

(** ** Insertion-ordered dictionaries *)

Section Dict.
Context {K V : Type} `{EqDec K}.

Definition dict := list (K * V).

Fixpoint dict_get (d : dict) (k : K) : option V :=
  match d with
  | [] => None
  | (k', v) :: d' => if eq_dec k k' then Some v else dict_get d' k
  end.

Definition dict_mem (d : dict) (k : K) : bool :=
  match dict_get d k with Some _ => true | None => false end.

Fixpoint dict_set (d : dict) (k : K) (v : V) : dict :=
  match d with
  | [] => [(k, v)]
  | (k', v') :: d' =>
      if eq_dec k k' then (k', v) :: d' else (k', v') :: dict_set d' k v
  end.

Definition dict_keys (d : dict) : list K := map fst d.
Definition dict_values (d : dict) : list V := map snd d.
End Dict.

Arguments dict : clear implicits.

(** ** Exceptions, outcomes and the method monad *)

Inductive exn : Type :=
| KeyError | ZeroDivisionError | ValueError | IndexError | OverflowError.

Inductive outcome (A : Type) : Type :=
| Return (a : A)
| Raise (e : exn).

Arguments Return {A} a.
Arguments Raise {A} e.

Definition py (S A : Type) : Type := S -> outcome A * S.

Definition ret {S A} (a : A) : py S A := fun s => (Return a, s).

Definition raise {S A} (e : exn) : py S A := fun s => (Raise e, s).

Definition bind {S A B} (m : py S A) (f : A -> py S B) : py S B :=
  fun s =>
    match m s with
    | (Return a, s') => f a s'
    | (Raise e, s') => (Raise e, s')
    end.

Declare Scope py_scope.
Delimit Scope py_scope with py.
Notation "x <- m ;; k" := (bind m (fun x => k))
  (at level 61, m at next level, right associativity) : py_scope.
Notation "m ;; k" := (bind m (fun _ => k))
  (at level 61, right associativity) : py_scope.
Local Open Scope py_scope.

(** The object after a call, whatever its outcome. *)
Definition exec {S A} (m : py S A) (s : S) : S := snd (m s).

(** The outcome of a call. *)
Definition eval {S A} (m : py S A) (s : S) : outcome A := fst (m s).

(** An attribute of an object: how to read it and how to assign it. *)
Record field (S X : Type) : Type :=
  Field { fget : S -> X; fset : X -> S -> S }.

Definition load {S X} (f : field S X) : py S X :=
  fun s => (Return (fget f s), s).

Definition store {S X} (f : field S X) (x : X) : py S unit :=
  fun s => (Return tt, fset f x s).

(** [k in self.f] *)
Definition contains {S K V} `{EqDec K} (f : field S (dict K V)) (k : K)
  : py S bool :=
  fun s => (Return (dict_mem (fget f s) k), s).

(** [self.f[k]], raising [KeyError] on an absent key *)
Definition getitem {S K V} `{EqDec K} (f : field S (dict K V)) (k : K)
  : py S V :=
  fun s =>
    match dict_get (fget f s) k with
    | Some v => (Return v, s)
    | None => (Raise KeyError, s)
    end.

(** [self.f[k] = v] *)
Definition setitem {S K V} `{EqDec K} (f : field S (dict K V)) (k : K) (v : V)
  : py S unit :=
  fun s => (Return tt, fset f (dict_set (fget f s) k v) s).

(** [for x in xs: ...], with the local variables [b] that the loop body
    reads and assigns carried from one round to the next. *)
Fixpoint for_fold {S X B} (xs : list X) (b : B) (body : X -> B -> py S B)
  : py S B :=
  match xs with
  | [] => ret b
  | x :: xs' => b' <- body x b ;; for_fold xs' b' body
  end.

(** [d[k]] on a local dictionary *)
Definition lookup {S K V} `{EqDec K} (d : dict K V) (k : K) : py S V :=
  match dict_get d k with
  | Some v => ret v
  | None => raise KeyError
  end.

(** An attribute of an attribute. *)
Definition subfield {S T X} (f : field S T) (g : field T X) : field S X :=
  Field (fun s => fget g (fget f s))
        (fun x s => fset f (fset g x (fget f s)) s).

(** A method of the object held in attribute [f], called on it in place;
    it serves for the methods a subclass inherits. *)
Definition within {S T A} (f : field S T) (m : py T A) : py S A :=
  fun s => let (o, b) := m (fget f s) in (o, fset f b s).

(** [self.f[k].m(...)]: a method of the object stored under key [k],
    called on it in place. *)
Definition call_item {S K T A} `{EqDec K} (f : field S (dict K T)) (k : K)
    (m : py T A) : py S A :=
  fun s =>
    match dict_get (fget f s) k with
    | None => (Raise KeyError, s)
    | Some obj =>
        let (o, obj') := m obj in
        (o, fset f (dict_set (fget f s) k obj') s)
    end.

(** A sequence of calls made by a caller that goes on to the next call
    whatever the outcome of the previous one. *)
Fixpoint run_calls {S X} (call : X -> py S unit) (xs : list X) (s : S) : S :=
  match xs with
  | [] => s
  | x :: xs' => run_calls call xs' (exec (call x) s)
  end.

(** ** Arithmetic that can raise *)

(** [x / y] *)
Definition truediv {S} (x y : R) : py S R :=
  if Req_dec_T y 0 then raise ZeroDivisionError else ret (x / y).

(** [math.sqrt(x)] *)
Definition math_sqrt {S} (x : R) : py S R :=
  if Rlt_dec x 0 then raise ValueError else ret (sqrt x).

(** [math.log(x)] *)
Definition math_log {S} (x : R) : py S R :=
  if Rle_dec x 0 then raise ValueError else ret (ln x).

(** The greatest binary64 float, [(2 - 2^-52) * 2^1023]. *)
Definition float_max : R := (2 - / 2 ^ 52) * 2 ^ 1023.

(** Half the least positive binary64 float, [2^-1075]: what is at most
    this rounds to 0.0. *)
Definition float_tiny : R := / 2 ^ 1075.

(** [math.exp(x)]: the exponential where a float can hold it,
    [OverflowError] when it is beyond the greatest float, 0.0 when it is
    too small for the least positive one.  The result is not rounded;
    the half unit in the last place between the greatest float and the
    point from which rounding gives infinity belongs to the rounding that
    the model leaves out. *)
Definition math_exp {S} (x : R) : py S R :=
  if Rlt_dec float_max (exp x) then raise OverflowError
  else if Rle_dec (exp x) float_tiny then ret 0
  else ret (exp x).

(** ** [class MAB] *)

Module MAB.
Section MAB.
Context {A : Type} `{EqDec A}.

Record t : Type := Build
  { total_rewards : dict A R;
    total_count : dict A Z;
    average_reward : dict A R }.

Definition total_rewards_f : field t (dict A R) :=
  Field total_rewards
    (fun x s => Build x (total_count s) (average_reward s)).
Definition total_count_f : field t (dict A Z) :=
  Field total_count
    (fun x s => Build (total_rewards s) x (average_reward s)).
Definition average_reward_f : field t (dict A R) :=
  Field average_reward
    (fun x s => Build (total_rewards s) (total_count s) x).

(** [__init__] *)
Definition init : t := Build [] [] [].

(** [description] *)
Definition description : py t string := ret "Simple MAB"%string.

(** [update_reward] *)
Definition update_reward (arm : A) (reward : R) : py t unit :=
  known <- contains total_rewards_f arm ;;
  (if known then ret tt
   else setitem total_rewards_f arm 0 ;; setitem total_count_f arm 0%Z) ;;
  c <- getitem total_count_f arm ;;
  setitem total_count_f arm (c + 1)%Z ;;
  r <- getitem total_rewards_f arm ;;
  setitem total_rewards_f arm (r + reward) ;;
  r <- getitem total_rewards_f arm ;;
  c <- getitem total_count_f arm ;;
  q <- truediv r (IZR c) ;;
  setitem average_reward_f arm q.

(** [get_reward] *)
Definition get_reward (arm : A) : py t R :=
  known <- contains average_reward_f arm ;;
  if known then getitem average_reward_f arm else ret 0.

(** [get_arm_count] *)
Definition get_arm_count (arm : A) : py t Z :=
  known <- contains total_count_f arm ;;
  if known then getitem total_count_f arm else ret 0%Z.

(** [max(items, key=operator.itemgetter(1))] on a non-empty list: the
    running best is replaced only by an item of strictly greater
    value. *)
Definition max_by_value (first : A * R) (rest : list (A * R)) : A * R :=
  fold_left
    (fun best item => if Rlt_dec (snd best) (snd item) then item else best)
    rest first.

(** [get_best_arm]; the result [(None, None)] is a pair of absent
    values. *)
Definition get_best_arm : py t (option A * option R) :=
  items <- load average_reward_f ;;
  match items with
  | [] => ret (None, None)
  | first :: rest =>
      let best := max_by_value first rest in
      ret (Some (fst best), Some (snd best))
  end.
End MAB.
Arguments t : clear implicits.
End MAB.

(** ** [class UCB1(MAB)] *)

Module UCB1.
Section UCB1.
Context {A : Type} `{EqDec A}.

Record t : Type := Build
  { base : MAB.t A;
    beta : R;
    overall_total_count : Z;
    ucb : R }.

Definition base_f : field t (MAB.t A) :=
  Field base (fun x s => Build x (beta s) (overall_total_count s) (ucb s)).
Definition beta_f : field t R :=
  Field beta (fun x s => Build (base s) x (overall_total_count s) (ucb s)).
Definition overall_total_count_f : field t Z :=
  Field overall_total_count (fun x s => Build (base s) (beta s) x (ucb s)).
Definition ucb_f : field t R :=
  Field ucb (fun x s => Build (base s) (beta s) (overall_total_count s) x).

Definition total_rewards_f := subfield base_f MAB.total_rewards_f.
Definition total_count_f := subfield base_f MAB.total_count_f.
Definition average_reward_f := subfield base_f MAB.average_reward_f.

(** [__init__(beta)] *)
Definition init (b : R) : t := Build MAB.init b 0%Z 0.

(** [UCB1()] *)
Definition default : t := init 1.

(** [description] *)
Definition description : py t string := ret "UCB MAB"%string.

(** [update_reward] *)
Definition update_reward (arm : A) (reward : R) : py t unit :=
  known <- contains total_rewards_f arm ;;
  (if known then ret tt
   else setitem total_rewards_f arm 0 ;; setitem total_count_f arm 0%Z) ;;
  c <- getitem total_count_f arm ;;
  setitem total_count_f arm (c + 1)%Z ;;
  n <- load overall_total_count_f ;;
  store overall_total_count_f (n + 1)%Z ;;
  b <- load beta_f ;;
  c <- getitem total_count_f arm ;;
  l <- math_log (IZR c) ;;
  c <- getitem total_count_f arm ;;
  q <- truediv (2 * b * l) (IZR c) ;;
  u <- math_sqrt q ;;
  store ucb_f u ;;
  u <- load ucb_f ;;
  let ucb_reward := reward + u in
  r <- getitem total_rewards_f arm ;;
  setitem total_rewards_f arm (r + ucb_reward) ;;
  r <- getitem total_rewards_f arm ;;
  c <- getitem total_count_f arm ;;
  q <- truediv r (IZR c) ;;
  setitem average_reward_f arm q.

(** [get_last_ucb] *)
Definition get_last_ucb : py t R := load ucb_f.

(** Inherited from [MAB]. *)
Definition get_reward (arm : A) : py t R :=
  within base_f (MAB.get_reward arm).
Definition get_arm_count (arm : A) : py t Z :=
  within base_f (MAB.get_arm_count arm).
Definition get_best_arm : py t (option A * option R) :=
  within base_f MAB.get_best_arm.
End UCB1.
Arguments t : clear implicits.
End UCB1.

(** ** The generator behind [random] *)

(** The module-level generator of [random] is a value of an abstract
    type; [betavariate] and [choices] read it and leave a new one.  What
    the library documents about them is kept: [betavariate(a, b)] needs
    [a > 0] and [b > 0] and raises [ValueError] otherwise, its result
    lies in [[0, 1]]; [choices(population, weights)] returns a member of
    the population, here at the index that the generator picks. *)
Record random (G : Type) : Type := Random
  { beta_draw : R -> R -> G -> R * G;
    index_draw : list R -> G -> nat * G }.

Definition betavariate {S G} (rnd : random G) (gen : field S G) (a b : R)
  : py S R :=
  if Rle_dec a 0 then raise ValueError
  else if Rle_dec b 0 then raise ValueError
  else
    g <- load gen ;;
    let (x, g') := beta_draw rnd a b g in
    store gen g' ;; ret x.

(** [random.choices(population, weights)[0]]: the library sums the
    weights, raises [ValueError] when their number is not that of the
    population, [IndexError] on an empty population, [ValueError] when
    the total is not positive or not finite, and then bisects the
    cumulative weights up to the last index, so that what it returns is a
    member of the population. *)
Definition choices {S G X} (rnd : random G) (gen : field S G)
    (population : list X) (weights : list R) : py S X :=
  if negb (List.length weights =? List.length population)%nat
  then raise ValueError
  else
    match population with
    | [] => raise IndexError
    | first :: _ =>
        let total := fold_left Rplus weights 0 in
        if Rle_dec total 0 then raise ValueError
        else if Rlt_dec float_max total then raise ValueError
        else
          g <- load gen ;;
          let (i, g') := index_draw rnd weights g in
          store gen g' ;;
          ret (nth (Nat.min i (List.length population - 1)) population first)
    end.

(** ** [class TS] *)

Module TS.
Section TS.
Context {A : Type} `{EqDec A} {G : Type} (rnd : random G).

Record t : Type := Build
  { total_count : dict A Z;
    alpha : dict A R;
    beta : dict A R;
    last_drawn : dict A R;
    gen : G }.

Definition total_count_f : field t (dict A Z) :=
  Field total_count
    (fun x s => Build x (alpha s) (beta s) (last_drawn s) (gen s)).
Definition alpha_f : field t (dict A R) :=
  Field alpha
    (fun x s => Build (total_count s) x (beta s) (last_drawn s) (gen s)).
Definition beta_f : field t (dict A R) :=
  Field beta
    (fun x s => Build (total_count s) (alpha s) x (last_drawn s) (gen s)).
Definition last_drawn_f : field t (dict A R) :=
  Field last_drawn
    (fun x s => Build (total_count s) (alpha s) (beta s) x (gen s)).
Definition gen_f : field t G :=
  Field gen
    (fun x s => Build (total_count s) (alpha s) (beta s) (last_drawn s) x).

(** [__init__], with the generator as the program finds it *)
Definition init (g : G) : t := Build [] [] [] [] g.

(** [description] *)
Definition description : py t string :=
  ret "Multi-armed Bandit with Thompson Sampling technique"%string.

(** [update_reward] *)
Definition update_reward (arm : A) (reward : R) : py t unit :=
  known <- contains total_count_f arm ;;
  (if known then ret tt
   else setitem alpha_f arm 1 ;;
        setitem beta_f arm 1 ;;
        setitem total_count_f arm 0%Z ;;
        setitem last_drawn_f arm 0) ;;
  c <- getitem total_count_f arm ;;
  setitem total_count_f arm (c + 1)%Z ;;
  a <- getitem alpha_f arm ;;
  setitem alpha_f arm (a + reward) ;;
  b <- getitem beta_f arm ;;
  setitem beta_f arm (b + (1 - reward)).

(** [get_reward] *)
Definition get_reward (arm : A) : py t R :=
  known <- contains total_count_f arm ;;
  if known then
    a <- getitem alpha_f arm ;;
    a' <- getitem alpha_f arm ;;
    b <- getitem beta_f arm ;;
    truediv (a - 1) (a' - 1 + b - 1)
  else ret 0.

(** [get_arm_count] *)
Definition get_arm_count (arm : A) : py t Z :=
  known <- contains total_count_f arm ;;
  if known then getitem total_count_f arm else ret 0%Z.

(** One round of the loop of [get_best_arm]; [best] is the local
    dictionary [best_arm] with its two entries. *)
Definition best_arm_round (arm : A) (best : option A * R)
  : py t (option A * R) :=
  a <- getitem alpha_f arm ;;
  b <- getitem beta_f arm ;;
  x <- betavariate rnd gen_f a b ;;
  setitem last_drawn_f arm x ;;
  d <- getitem last_drawn_f arm ;;
  if Rge_dec d (snd best) then
    d' <- getitem last_drawn_f arm ;;
    ret (Some arm, d')
  else ret best.

(** [get_best_arm] *)
Definition get_best_arm : py t (option A * option R) :=
  arms <- load total_count_f ;;
  best <- for_fold (dict_keys arms) (None, 0) best_arm_round ;;
  match fst best with
  | None => ret (None, None)
  | Some arm => ret (Some arm, Some (snd best))
  end.

(** [get_last_drawn_value] *)
Definition get_last_drawn_value (arm : A) : py t R :=
  known <- contains last_drawn_f arm ;;
  if known then getitem last_drawn_f arm else ret 0.
End TS.
Arguments t : clear implicits.
End TS.

(** ** [class TS] on float rewards

    The arithmetic of [update_reward] and [get_reward] when the rewards
    are Python floats: [alpha] and [beta] are then binary64 numbers from
    the first update on, every sum and difference is rounded to the
    nearest float, and the quotient raises [ZeroDivisionError] when the
    divisor compares equal to 0.0.  The integers 0 and 1 of the source
    are written as the floats to which Python converts them, exactly,
    when they meet a float. *)

Module TS64.
Section TS64.
Context {A : Type} `{EqDec A}.

Record t : Type := Build
  { total_count : dict A Z;
    alpha : dict A PrimFloat.float;
    beta : dict A PrimFloat.float;
    last_drawn : dict A PrimFloat.float }.

Definition total_count_f : field t (dict A Z) :=
  Field total_count (fun x s => Build x (alpha s) (beta s) (last_drawn s)).
Definition alpha_f : field t (dict A PrimFloat.float) :=
  Field alpha (fun x s => Build (total_count s) x (beta s) (last_drawn s)).
Definition beta_f : field t (dict A PrimFloat.float) :=
  Field beta (fun x s => Build (total_count s) (alpha s) x (last_drawn s)).
Definition last_drawn_f : field t (dict A PrimFloat.float) :=
  Field last_drawn (fun x s => Build (total_count s) (alpha s) (beta s) x).

(** [__init__] *)
Definition init : t := Build [] [] [] [].

(** [x / y] on floats *)
Definition truediv (x y : PrimFloat.float) : py t PrimFloat.float :=
  if PrimFloat.eqb y 0%float then raise ZeroDivisionError
  else ret (PrimFloat.div x y).

(** [update_reward] *)
Definition update_reward (arm : A) (reward : PrimFloat.float) : py t unit :=
  known <- contains total_count_f arm ;;
  (if known then ret tt
   else setitem alpha_f arm 1%float ;;
        setitem beta_f arm 1%float ;;
        setitem total_count_f arm 0%Z ;;
        setitem last_drawn_f arm 0%float) ;;
  c <- getitem total_count_f arm ;;
  setitem total_count_f arm (c + 1)%Z ;;
  a <- getitem alpha_f arm ;;
  setitem alpha_f arm (PrimFloat.add a reward) ;;
  b <- getitem beta_f arm ;;
  setitem beta_f arm (PrimFloat.add b (PrimFloat.sub 1%float reward)).

(** [get_reward] *)
Definition get_reward (arm : A) : py t PrimFloat.float :=
  known <- contains total_count_f arm ;;
  if known then
    a <- getitem alpha_f arm ;;
    a' <- getitem alpha_f arm ;;
    b <- getitem beta_f arm ;;
    truediv (PrimFloat.sub a 1%float)
      (PrimFloat.sub (PrimFloat.add (PrimFloat.sub a' 1%float) b) 1%float)
  else ret 0%float.
End TS64.
Arguments t : clear implicits.
End TS64.

(** ** [class SoftMax(MAB)] *)

Module SoftMax.
Section SoftMax.
Context {A : Type} `{EqDec A} {G : Type} (rnd : random G).

Record t : Type := Build
  { base : MAB.t A;
    tau : R;
    gen : G }.

Definition base_f : field t (MAB.t A) :=
  Field base (fun x s => Build x (tau s) (gen s)).
Definition tau_f : field t R :=
  Field tau (fun x s => Build (base s) x (gen s)).
Definition gen_f : field t G :=
  Field gen (fun x s => Build (base s) (tau s) x).

Definition average_reward_f := subfield base_f MAB.average_reward_f.

(** [__init__(tau)], with the generator as the program finds it *)
Definition init (temperature : R) (g : G) : t :=
  Build MAB.init temperature g.

(** [description] *)
Definition description : py t string :=
  ret "Boltzmann Exploration (Softmax)"%string.

(** Inherited from [MAB]. *)
Definition update_reward (arm : A) (reward : R) : py t unit :=
  within base_f (MAB.update_reward arm reward).
Definition get_reward (arm : A) : py t R :=
  within base_f (MAB.get_reward arm).
Definition get_arm_count (arm : A) : py t Z :=
  within base_f (MAB.get_arm_count arm).

(** [[math.exp(reward/self.tau) for reward in rewards]] *)
Fixpoint weights (rewards : list R) : py t (list R) :=
  match rewards with
  | [] => ret []
  | reward :: rest =>
      temperature <- load tau_f ;;
      q <- truediv reward temperature ;;
      w <- math_exp q ;;
      ws <- weights rest ;;
      ret (w :: ws)
  end.

(** [get_best_arm] *)
Definition get_best_arm : py t (option A * option R) :=
  items <- load average_reward_f ;;
  if (List.length items =? 0)%nat then ret (None, None)
  else
    let arm_list := dict_keys items in
    arm_weight <- weights (dict_values items) ;;
    choice <- choices rnd gen_f arm_list arm_weight ;;
    r <- getitem average_reward_f choice ;;
    ret (Some choice, Some r).

(** First loop of [get_prob_list]; the locals are [arm_prob] and
    [weigth_sum]. *)
Definition prob_list_weigh (item : A * R) (locals : dict A R * R)
  : py t (dict A R * R) :=
  let (arm, reward) := item in
  let (arm_prob, weigth_sum) := locals in
  temperature <- load tau_f ;;
  q <- truediv reward temperature ;;
  e <- math_exp q ;;
  let arm_prob := dict_set arm_prob arm e in
  w <- lookup arm_prob arm ;;
  ret (arm_prob, weigth_sum + w).

(** Second loop of [get_prob_list].  A sum beyond the greatest float is
    infinite, and a weight divided by it is 0.0. *)
Definition prob_list_scale (weigth_sum : R) (arm : A) (arm_prob : dict A R)
  : py t (dict A R) :=
  w <- lookup arm_prob arm ;;
  p <- (if Rlt_dec float_max weigth_sum then ret 0
        else truediv w weigth_sum) ;;
  ret (dict_set arm_prob arm p).

(** [get_prob_list] *)
Definition get_prob_list : py t (dict A R) :=
  items <- load average_reward_f ;;
  if negb (List.length items =? 0)%nat then
    locals <- for_fold items ([], 0) prob_list_weigh ;;
    let (arm_prob, weigth_sum) := locals in
    for_fold (dict_keys arm_prob) arm_prob (prob_list_scale weigth_sum)
  else ret [].
End SoftMax.
Arguments t : clear implicits.
End SoftMax.

(** ** [class CMAB] *)

Module CMAB.
Section CMAB.
Context {A : Type} `{EqDec A} {C : Type} `{EqDec C}.

Record t : Type := Build { mab : dict C (UCB1.t A) }.

Definition mab_f : field t (dict C (UCB1.t A)) :=
  Field mab (fun x _ => Build x).

(** [__init__] *)
Definition init : t := Build [].

(** [description] *)
Definition description : py t string :=
  ret "Contextual MAB using Multi-UCB1"%string.

(** [update_reward] *)
Definition update_reward (arm : A) (reward : R) (context : C) : py t unit :=
  known <- contains mab_f context ;;
  (if known then ret tt else setitem mab_f context UCB1.default) ;;
  call_item mab_f context (UCB1.update_reward arm reward).

(** [get_reward] *)
Definition get_reward (arm : A) (context : C) : py t R :=
  known <- contains mab_f context ;;
  if known then call_item mab_f context (UCB1.get_reward arm) else ret 0.

(** [get_best_arm] *)
Definition get_best_arm (context : C) : py t (option A * option R) :=
  known <- contains mab_f context ;;
  if known then call_item mab_f context UCB1.get_best_arm
  else ret (None, None).
End CMAB.
Arguments t : clear implicits.
End CMAB.

(** * The vocabulary of the statements *)

(** ** Histories of calls and what they determine *)

Section History.
Context {A : Type} `{EqDec A}.

(** The rewards passed for [arm], oldest first. *)
Definition rewards_of (arm : A) (calls : list (A * R)) : list R :=
  map snd (filter (fun c => if eq_dec (fst c) arm then true else false) calls).

(** Their sum, accumulated from 0 in the order of the calls. *)
Definition total_of (arm : A) (calls : list (A * R)) : R :=
  fold_left Rplus (rewards_of arm calls) 0.

(** The number of updates of [arm]. *)
Definition count_of (arm : A) (calls : list (A * R)) : Z :=
  Z.of_nat (List.length (rewards_of arm calls)).

(** Whether [arm] was updated at all. *)
Definition updated (arm : A) (calls : list (A * R)) : bool :=
  match rewards_of arm calls with [] => false | _ :: _ => true end.
End History.

(** ** Sequences of calls *)

(** [update_reward(arm, reward)] for each pair of a list, in order. *)
Definition MAB_updates {A} `{EqDec A} (calls : list (A * R))
  : MAB.t A -> MAB.t A :=
  run_calls (fun c => MAB.update_reward (fst c) (snd c)) calls.

(** [update_reward(arm, reward)] for each pair of a list, in order. *)
Definition UCB1_updates {A} `{EqDec A} (calls : list (A * R))
  : UCB1.t A -> UCB1.t A :=
  run_calls (fun c => UCB1.update_reward (fst c) (snd c)) calls.

(** [update_reward(arm, reward)] for each pair of a list, in order. *)
Definition TS_updates {A} `{EqDec A} {G} (calls : list (A * R))
  : TS.t A G -> TS.t A G :=
  run_calls (fun c => TS.update_reward (fst c) (snd c)) calls.

(** [update_reward(arm, reward)] for each pair of a list, in order. *)
Definition SoftMax_updates {A} `{EqDec A} {G} (calls : list (A * R))
  : SoftMax.t A G -> SoftMax.t A G :=
  run_calls (fun c => SoftMax.update_reward (fst c) (snd c)) calls.

(** [update_reward(arm, reward, context)] for each triple of a list. *)
Definition CMAB_updates {A} `{EqDec A} {C} `{EqDec C}
    (calls : list (A * R * C)) : CMAB.t A C -> CMAB.t A C :=
  run_calls
    (fun c => CMAB.update_reward (fst (fst c)) (snd (fst c)) (snd c)) calls.

(** ** Sample average *)

Section MABVocabulary.
Context {A : Type} `{EqDec A}.
Implicit Types (s : MAB.t A) (arm : A) (calls : list (A * R)).

(** The entry of a dictionary of numbers, 0 when absent. *)
Definition entry_R (d : dict A R) arm : R :=
  match dict_get d arm with Some r => r | None => 0 end.

Definition entry_Z (d : dict A Z) arm : Z :=
  match dict_get d arm with Some c => c | None => 0%Z end.

(** The two dictionaries written on a first update have the same keys,
    and a count is never negative. *)
Definition counted (rewards : dict A R) (count : dict A Z) : Prop :=
  forall arm,
    dict_mem rewards arm = dict_mem count arm /\
    (0 <= entry_Z count arm)%Z.

(** The object that a call of [update_reward] leaves. *)
Definition MAB_updated s arm (reward : R) : MAB.t A :=
  let r := entry_R (MAB.total_rewards s) arm + reward in
  let c := (entry_Z (MAB.total_count s) arm + 1)%Z in
  MAB.Build (dict_set (MAB.total_rewards s) arm r)
            (dict_set (MAB.total_count s) arm c)
            (dict_set (MAB.average_reward s) arm (r / IZR c)).

(** What the three dictionaries hold after the calls of a history. *)
Definition MAB_holds calls s : Prop :=
  counted (MAB.total_rewards s) (MAB.total_count s) /\
  forall arm,
    entry_R (MAB.total_rewards s) arm = total_of arm calls /\
    entry_Z (MAB.total_count s) arm = count_of arm calls /\
    dict_mem (MAB.total_rewards s) arm = updated arm calls /\
    dict_get (MAB.average_reward s) arm =
      if updated arm calls
      then Some (total_of arm calls / IZR (count_of arm calls))
      else None.

(** [best] is the first item of greatest value of a traversal: the items
    before it are strictly smaller, the items after it are not greater. *)
Definition first_greatest (items : list (A * R)) (best : A * R) : Prop :=
  exists before after,
    items = before ++ best :: after /\
    (forall x, In x before -> snd x < snd best) /\
    (forall x, In x after -> snd x <= snd best).
End MABVocabulary.

(** ** Upper confidence bound *)

Section UCB1Vocabulary.
Context {A : Type} `{EqDec A}.
Implicit Types (s : UCB1.t A) (arm : A) (calls : list (A * R)).

Definition UCB1_rewards s := MAB.total_rewards (UCB1.base s).

Definition UCB1_count s := MAB.total_count (UCB1.base s).

Definition UCB1_average s := MAB.average_reward (UCB1.base s).

(** The argument of the square root, for an arm whose count is [n]. *)
Definition UCB1_radicand (b : R) (n : Z) : R := 2 * b * ln (IZR n) / IZR n.

(** The exploration bonus. *)
Definition UCB1_bonus (b : R) (n : Z) : R := sqrt (UCB1_radicand b n).

(** The object that a call of [update_reward] leaves when it returns. *)
Definition UCB1_updated s arm (reward : R) : UCB1.t A :=
  let n := (entry_Z (UCB1_count s) arm + 1)%Z in
  let u := UCB1_bonus (UCB1.beta s) n in
  let r := entry_R (UCB1_rewards s) arm + (reward + u) in
  UCB1.Build
    (MAB.Build (dict_set (UCB1_rewards s) arm r)
               (dict_set (UCB1_count s) arm n)
               (dict_set (UCB1_average s) arm (r / IZR n)))
    (UCB1.beta s) (UCB1.overall_total_count s + 1)%Z u.

(** The object that it leaves when [math.sqrt] raises: the counters are
    incremented, the rewards and the estimates are as they were. *)
Definition UCB1_interrupted s arm : UCB1.t A :=
  let n := (entry_Z (UCB1_count s) arm + 1)%Z in
  UCB1.Build
    (MAB.Build (dict_set (UCB1_rewards s) arm (entry_R (UCB1_rewards s) arm))
               (dict_set (UCB1_count s) arm n)
               (UCB1_average s))
    (UCB1.beta s) (UCB1.overall_total_count s + 1)%Z (UCB1.ucb s).

(** What holds of a [UCB1] after the calls of a history, whether they
    returned or raised. *)
Definition UCB1_holds (b : R) calls s : Prop :=
  counted (UCB1_rewards s) (UCB1_count s) /\
  UCB1.beta s = b /\
  UCB1.overall_total_count s = Z.of_nat (List.length calls) /\
  forall arm, entry_Z (UCB1_count s) arm = count_of arm calls.
End UCB1Vocabulary.

(** ** Thompson sampling *)

(** The shape parameters that a list of rewards, oldest first, leads to
    from the seed 1. *)
Definition alpha_of (rewards : list R) : R := fold_left Rplus rewards 1.

Definition beta_of (rewards : list R) : R :=
  fold_left (fun b reward => b + (1 - reward)) rewards 1.

(** A generator whose every Beta draw is 1/2 and whose every index is 0;
    its state counts the draws. *)
Definition halves : random nat :=
  Random (fun _ _ g => (1 / 2, S g)) (fun _ g => (0%nat, S g)).

Section TSVocabulary.
Context {A : Type} `{EqDec A} {G : Type} (rnd : random G).
Implicit Types (s : TS.t A G) (arm : A) (calls : list (A * R)).

(** A shape parameter, at its seed 1 when the arm is absent. *)
Definition shape (d : dict A R) arm : R :=
  match dict_get d arm with Some x => x | None => 1 end.

(** The four dictionaries have the same keys. *)
Definition TS_keyed s : Prop :=
  forall arm,
    dict_mem (TS.alpha s) arm = dict_mem (TS.total_count s) arm /\
    dict_mem (TS.beta s) arm = dict_mem (TS.total_count s) arm /\
    dict_mem (TS.last_drawn s) arm = dict_mem (TS.total_count s) arm.

(** The object that a call of [update_reward] leaves. *)
Definition TS_updated s arm (reward : R) : TS.t A G :=
  TS.Build
    (dict_set (TS.total_count s) arm (entry_Z (TS.total_count s) arm + 1)%Z)
    (dict_set (TS.alpha s) arm (shape (TS.alpha s) arm + reward))
    (dict_set (TS.beta s) arm (shape (TS.beta s) arm + (1 - reward)))
    (dict_set (TS.last_drawn s) arm (entry_R (TS.last_drawn s) arm))
    (TS.gen s).

(** What the dictionaries hold after the calls of a history. *)
Definition TS_holds calls s : Prop :=
  TS_keyed s /\
  NoDup (dict_keys (TS.total_count s)) /\
  forall arm,
    if updated arm calls then
      dict_get (TS.total_count s) arm = Some (count_of arm calls) /\
      dict_get (TS.alpha s) arm = Some (alpha_of (rewards_of arm calls)) /\
      dict_get (TS.beta s) arm = Some (beta_of (rewards_of arm calls))
    else
      dict_get (TS.total_count s) arm = None.

(** The shape parameters of the arms of a traversal. *)
Definition TS_params (al be : dict A R) (arms : list A) : list (R * R) :=
  map (fun arm => (shape al arm, shape be arm)) arms.

(** One Beta draw for each pair of parameters, in order, each from the
    generator that the previous one left. *)
Fixpoint draw_all (params : list (R * R)) (g : G) : list R * G :=
  match params with
  | [] => ([], g)
  | (a, b) :: rest =>
      let (x, g') := beta_draw rnd a b g in
      let (xs, g'') := draw_all rest g' in
      (x :: xs, g'')
  end.

(** The dictionary after [d[k] = v] for each item of a list, in order. *)
Definition dict_set_all (items : list (A * R)) (d : dict A R) : dict A R :=
  fold_left (fun d item => dict_set d (fst item) (snd item)) items d.

(** The running best of [get_best_arm] after a list of arms with their
    samples. *)
Definition running_best (items : list (A * R)) (best : option A * R)
  : option A * R :=
  fold_left
    (fun best item =>
       if Rge_dec (snd item) (snd best) then (Some (fst item), snd item)
       else best)
    items best.

(** [best] is the last item of greatest value of a traversal: the items
    before it are not greater, the items after it are strictly smaller. *)
Definition last_greatest (items : list (A * R)) (best : A * R) : Prop :=
  exists before after,
    items = before ++ best :: after /\
    (forall x, In x before -> snd x <= snd best) /\
    (forall x, In x after -> snd x < snd best).
End TSVocabulary.

(** ** Boltzmann exploration *)

(** The sum of a list of numbers, accumulated from 0 as [sum] does. *)
Definition sum_R (xs : list R) : R := fold_left Rplus xs 0.

Section SoftMaxVocabulary.
Context {A : Type}.

(** The Boltzmann weight of an estimate at temperature [tau], as
    [math.exp] returns it when it does not overflow. *)
Definition weight (tau est : R) : R :=
  if Rle_dec (exp (est / tau)) float_tiny then 0 else exp (est / tau).

Definition weigh (tau : R) (item : A * R) : A * R :=
  (fst item, weight tau (snd item)).

End SoftMaxVocabulary.

(** ** Vocabulary of the further properties *)

Section FirstSeen.
Context {K : Type} `{EqDec K}.

(** The keys of a list, each once, in the order of their first
    occurrence. *)
Fixpoint first_seen (ks : list K) : list K :=
  match ks with
  | [] => []
  | k :: ks' => k :: remove eq_dec k (first_seen ks')
  end.
End FirstSeen.

(** The bonuses of the first [n] updates of an arm of a [UCB1], summed. *)
Fixpoint UCB1_bonus_total (b : R) (n : nat) : R :=
  match n with
  | O => 0
  | S m => UCB1_bonus_total b m + UCB1_bonus b (Z.of_nat (S m))
  end.

(** A call on a [TS]: an update, or a selection whose result the caller
    drops. *)
Inductive TS_call (A : Type) : Type :=
| TS_update (arm : A) (reward : R)
| TS_select.

Arguments TS_select {A}.

Section TSCalls.
Context {A : Type} `{EqDec A} {G : Type} (rnd : random G).

Definition TS_call_run (c : TS_call A) : py (TS.t A G) unit :=
  match c with
  | TS_update arm reward => TS.update_reward arm reward
  | TS_select => TS.get_best_arm rnd ;; ret tt
  end.

(** Updates and selections in any order, the next call made whatever
    the outcome of the previous one. *)
Definition TS_run (calls : list (TS_call A)) : TS.t A G -> TS.t A G :=
  run_calls TS_call_run calls.

(** The updates among the calls, in order. *)
Fixpoint TS_updates_of (calls : list (TS_call A)) : list (A * R) :=
  match calls with
  | [] => []
  | TS_update arm reward :: rest => (arm, reward) :: TS_updates_of rest
  | TS_select :: rest => TS_updates_of rest
  end.
End TSCalls.

(** The updates made under a context, in order. *)
Definition calls_under {A C : Type} `{EqDec C} (x : C)
    (calls : list (A * R * C)) : list (A * R) :=
  map fst (filter (fun c => if eq_dec (snd c) x then true else false) calls).

(** The [UCB1] that a context stands for: the one stored under it, a
    fresh one if there is none. *)
Definition instance_of {A C : Type} `{EqDec C} (s : CMAB.t A C) (x : C)
  : UCB1.t A :=
  match dict_get (CMAB.mab s) x with
  | Some obj => obj
  | None => UCB1.default
  end.

(** * Tactics: running the methods on given objects *)

(** Settles the comparisons of real numbers that a run meets, when
    linear arithmetic decides them. *)
Ltac settle_R :=
  repeat match goal with
    | |- context [Rge_dec ?x ?y] =>
        destruct (Rge_dec x y); [try (exfalso; lra)|try (exfalso; lra)]
    | |- context [Rle_dec ?x ?y] =>
        destruct (Rle_dec x y); [try (exfalso; lra)|try (exfalso; lra)]
    | |- context [Rlt_dec ?x ?y] =>
        destruct (Rlt_dec x y); [try (exfalso; lra)|try (exfalso; lra)]
    | |- context [Req_dec_T ?x ?y] =>
        destruct (Req_dec_T x y); [try (exfalso; lra)|try (exfalso; lra)]
    end.

(** Runs a method step by step. *)
Ltac py_eval :=
  repeat (progress
            (unfold eval, exec, bind, contains, getitem, setitem, lookup,
               load, store, truediv, math_sqrt, math_log, betavariate,
               choices, within, call_item, ret, raise;
             simpl; settle_R)).

(** * Dictionaries: reading after writing *)

Section DictFacts.
Context {K V : Type} `{EqDec K}.
Implicit Types (d : dict K V) (k : K) (v : V).

Lemma eq_dec_refl (X : Type) k (a b : X) :
  (if eq_dec k k then a else b) = a.
Proof. destruct (eq_dec k k); congruence. Qed.

Lemma eq_dec_neq (X : Type) k k' (a b : X) :
  k <> k' -> (if eq_dec k k' then a else b) = b.
Proof. intros; destruct (eq_dec k k'); congruence. Qed.

Lemma dict_get_set_same d k v : dict_get (dict_set d k v) k = Some v.
Proof.
  induction d as [|[k' v'] d IH]; simpl.
  - apply eq_dec_refl.
  - destruct (eq_dec k k') as [->|N]; simpl.
    + apply eq_dec_refl.
    + rewrite eq_dec_neq by assumption. exact IH.
Qed.

Lemma dict_get_set_other d k k' v :
  k' <> k -> dict_get (dict_set d k v) k' = dict_get d k'.
Proof.
  intros N. induction d as [|[k0 v0] d IH]; simpl.
  - now rewrite eq_dec_neq.
  - destruct (eq_dec k k0) as [->|N0]; simpl.
    + now rewrite !eq_dec_neq.
    + destruct (eq_dec k' k0); auto.
Qed.

Lemma dict_get_set d k k' v :
  dict_get (dict_set d k v) k' =
  if eq_dec k' k then Some v else dict_get d k'.
Proof.
  destruct (eq_dec k' k) as [->|N].
  - apply dict_get_set_same.
  - now apply dict_get_set_other.
Qed.

Lemma dict_set_set d k v v' :
  dict_set (dict_set d k v) k v' = dict_set d k v'.
Proof.
  induction d as [|[k0 v0] d IH]; simpl.
  - now rewrite eq_dec_refl.
  - destruct (eq_dec k k0) as [->|N]; simpl.
    + now rewrite eq_dec_refl.
    + rewrite eq_dec_neq by assumption. now rewrite IH.
Qed.

Lemma dict_mem_set d k k' v :
  dict_mem (dict_set d k v) k' =
  if eq_dec k' k then true else dict_mem d k'.
Proof.
  unfold dict_mem. rewrite dict_get_set. now destruct (eq_dec k' k).
Qed.

Lemma dict_mem_keys d k : dict_mem d k = true <-> In k (dict_keys d).
Proof.
  unfold dict_mem. induction d as [|[k0 v0] d IH]; simpl.
  - split; [discriminate | tauto].
  - destruct (eq_dec k k0) as [->|N].
    + split; auto.
    + rewrite IH. split; [auto | intros [E|I]; congruence].
Qed.

Lemma dict_get_None_keys d k : dict_get d k = None <-> ~ In k (dict_keys d).
Proof.
  rewrite <- dict_mem_keys. unfold dict_mem.
  destruct (dict_get d k); split; congruence.
Qed.

(** Writing to a present key keeps the order of the keys; writing to an
    absent key appends it. *)
Lemma dict_keys_set d k v :
  dict_keys (dict_set d k v) =
  if dict_mem d k then dict_keys d else dict_keys d ++ [k].
Proof.
  unfold dict_mem. induction d as [|[k0 v0] d IH]; simpl; auto.
  destruct (eq_dec k k0) as [->|N]; simpl; auto.
  rewrite IH. now destruct (dict_get d k).
Qed.

Lemma dict_get_In d k v : dict_get d k = Some v -> In (k, v) d.
Proof.
  induction d as [|[k0 v0] d IH]; simpl; [discriminate|].
  destruct (eq_dec k k0) as [->|N]; [intros [= ->]; auto | auto].
Qed.

Lemma dict_In_get d k v :
  NoDup (dict_keys d) -> In (k, v) d -> dict_get d k = Some v.
Proof.
  induction d as [|[k0 v0] d IH]; simpl; [tauto|].
  intros ND [E|I]; inversion ND; subst.
  - inversion E; subst. apply eq_dec_refl.
  - destruct (eq_dec k k0) as [->|N]; auto.
    exfalso. apply H2. unfold dict_keys.
    change k0 with (fst (k0, v)). now apply in_map.
Qed.

Lemma dict_keys_set_NoDup d k v :
  NoDup (dict_keys d) -> NoDup (dict_keys (dict_set d k v)).
Proof.
  intros ND. rewrite dict_keys_set.
  destruct (dict_mem d k) eqn:E; auto.
  apply NoDup_app; auto.
  - repeat constructor. simpl; tauto.
  - intros x I [<-|[]]. apply dict_mem_keys in I. congruence.
Qed.
End DictFacts.

(** * [MAB]: what a call of [update_reward] does *)

Section MABFacts.
Context {A : Type} `{EqDec A}.
Implicit Types (s : MAB.t A) (arm : A) (calls : list (A * R)).

Lemma counted_nil : counted [] [].
Proof. intros arm; split; [reflexivity | unfold entry_Z; simpl; lia]. Qed.

Lemma counted_set rewards count arm r :
  counted rewards count ->
  counted (dict_set rewards arm r)
          (dict_set count arm (entry_Z count arm + 1)%Z).
Proof.
  intros C arm'. destruct (C arm') as [M P]. destruct (C arm) as [_ P'].
  rewrite !dict_mem_set. unfold entry_Z in *. rewrite dict_get_set.
  destruct (eq_dec arm' arm); split; auto; lia.
Qed.

Lemma counted_mem_get rewards count arm :
  counted rewards count ->
  dict_get count arm =
  if dict_mem rewards arm then Some (entry_Z count arm) else None.
Proof.
  intros C. destruct (C arm) as [M _]. rewrite M.
  unfold dict_mem, entry_Z. now destruct (dict_get count arm).
Qed.

Lemma entry_R_get (rewards : dict A R) arm :
  dict_get rewards arm =
  if dict_mem rewards arm then Some (entry_R rewards arm) else None.
Proof. unfold dict_mem, entry_R. now destruct (dict_get rewards arm). Qed.

Lemma IZR_succ_neq_0 (c : Z) : (0 <= c)%Z -> IZR (c + 1) <> 0.
Proof. intros P E. apply eq_IZR_R0 in E. lia. Qed.

Lemma MAB_update_reward_run s arm reward :
  counted (MAB.total_rewards s) (MAB.total_count s) ->
  MAB.update_reward arm reward s = (Return tt, MAB_updated s arm reward).
Proof.
  intros C. destruct s as [rw ct av]; simpl in C.
  pose proof (counted_mem_get arm C) as Gc.
  pose proof (entry_R_get rw arm) as Gr.
  destruct (C arm) as [_ P].
  unfold MAB.update_reward, MAB_updated, bind, contains, getitem, setitem,
    truediv, ret, raise; simpl.
  destruct (dict_mem rw arm) eqn:M;
    repeat first [progress simpl | rewrite Gc | rewrite Gr
                 | rewrite dict_get_set_same].
  - destruct (Req_dec_T _ 0) as [E|_]; [now apply IZR_succ_neq_0 in E|].
    reflexivity.
  - destruct (Req_dec_T _ 0) as [E|_]; [exfalso; lra|].
    unfold entry_R, entry_Z. rewrite Gc, Gr. rewrite !dict_set_set.
    replace (0 + 1)%Z with 1%Z by lia. reflexivity.
Qed.

Lemma run_calls_app (S X : Type) (call : X -> py S unit) xs ys (s : S) :
  run_calls call (xs ++ ys) s = run_calls call ys (run_calls call xs s).
Proof. revert s; induction xs; simpl; auto. Qed.

Lemma rewards_of_snoc arm calls a r :
  rewards_of arm (calls ++ [(a, r)]) =
  rewards_of arm calls ++ (if eq_dec a arm then [r] else []).
Proof.
  unfold rewards_of. rewrite filter_app, map_app; simpl.
  now destruct (eq_dec a arm).
Qed.

Lemma updated_In arm calls : updated arm calls = true <-> In arm (map fst calls).
Proof.
  unfold updated, rewards_of. induction calls as [|[a r] calls IH]; simpl.
  - split; [discriminate | tauto].
  - destruct (eq_dec a arm) as [->|N]; simpl; [tauto|].
    rewrite IH. split; [auto | intros [E|I]; congruence].
Qed.

Lemma history_snoc_same arm calls r :
  total_of arm (calls ++ [(arm, r)]) = total_of arm calls + r /\
  count_of arm (calls ++ [(arm, r)]) = (count_of arm calls + 1)%Z /\
  updated arm (calls ++ [(arm, r)]) = true.
Proof.
  unfold total_of, count_of, updated.
  rewrite rewards_of_snoc, eq_dec_refl, fold_left_app, length_app; simpl.
  repeat split; [lia|]. now destruct (rewards_of arm calls).
Qed.

Lemma history_snoc_other arm calls a r :
  arm <> a ->
  total_of arm (calls ++ [(a, r)]) = total_of arm calls /\
  count_of arm (calls ++ [(a, r)]) = count_of arm calls /\
  updated arm (calls ++ [(a, r)]) = updated arm calls.
Proof.
  intros N. unfold total_of, count_of, updated.
  rewrite rewards_of_snoc, eq_dec_neq, app_nil_r by congruence. auto.
Qed.

Lemma MAB_holds_init : MAB_holds [] MAB.init.
Proof.
  split; [apply counted_nil|]. intros arm. now cbv.
Qed.

Lemma MAB_holds_step calls s a r :
  MAB_holds calls s ->
  MAB_holds (calls ++ [(a, r)]) (exec (MAB.update_reward a r) s).
Proof.
  intros [C Hs]. unfold exec. rewrite MAB_update_reward_run by assumption.
  simpl. split; [now apply counted_set|].
  intros arm. unfold entry_R, entry_Z; simpl.
  rewrite !dict_get_set, dict_mem_set.
  destruct (eq_dec arm a) as [->|N].
  - destruct (history_snoc_same a calls r) as (-> & -> & ->).
    destruct (Hs a) as (<- & <- & _). auto.
  - destruct (history_snoc_other calls r N) as (-> & -> & ->).
    apply Hs.
Qed.

Lemma MAB_holds_updates calls : MAB_holds calls (MAB_updates calls MAB.init).
Proof.
  induction calls as [|[a r] calls IH] using rev_ind.
  - apply MAB_holds_init.
  - unfold MAB_updates. rewrite run_calls_app. simpl.
    exact (MAB_holds_step a r IH).
Qed.

Lemma MAB_get_reward_run s arm :
  MAB.get_reward arm s = (Return (entry_R (MAB.average_reward s) arm), s).
Proof.
  unfold MAB.get_reward, bind, contains, getitem, ret, entry_R, dict_mem.
  simpl. destruct (dict_get (MAB.average_reward s) arm) eqn:E; simpl;
    now rewrite ?E.
Qed.

Lemma MAB_get_arm_count_run s arm :
  MAB.get_arm_count arm s = (Return (entry_Z (MAB.total_count s) arm), s).
Proof.
  unfold MAB.get_arm_count, bind, contains, getitem, ret, entry_Z, dict_mem.
  simpl. destruct (dict_get (MAB.total_count s) arm) eqn:E; simpl;
    now rewrite ?E.
Qed.

(** The two reads of an arm that was updated. *)
Lemma MAB_reads_after_updates calls arm :
  In arm (map fst calls) ->
  eval (MAB.get_reward arm) (MAB_updates calls MAB.init) =
    Return (total_of arm calls / IZR (count_of arm calls)) /\
  eval (MAB.get_arm_count arm) (MAB_updates calls MAB.init) =
    Return (count_of arm calls).
Proof.
  intros I. unfold eval.
  rewrite MAB_get_reward_run, MAB_get_arm_count_run; simpl.
  destruct (MAB_holds_updates calls) as [_ Hs].
  destruct (Hs arm) as (_ & Ec & _ & Ea).
  apply updated_In in I. rewrite I in Ea.
  unfold entry_R. now rewrite Ea, Ec.
Qed.
End MABFacts.

(** C1.  Sample average: after any sequence of calls of
    [MAB.update_reward], [get_reward] of an arm that was updated returns
    the sum of the rewards passed for it divided by the number of its
    updates, and [get_arm_count] returns that number.  In particular,
    after update("A", 1.0), update("A", 0.0), update("B", 0.5):
    get_reward("A") = 0.5, get_reward("B") = 0.5, get_arm_count("A") = 2. *)
Theorem MAB_mean_consistency :
  (forall (A : Type) (E : EqDec A) (calls : list (A * R)) (arm : A),
      In arm (map fst calls) ->
      let s := MAB_updates calls MAB.init in
      eval (MAB.get_reward arm) s =
        Return (total_of arm calls / IZR (count_of arm calls)) /\
      eval (MAB.get_arm_count arm) s = Return (count_of arm calls)) /\
  (let s := MAB_updates [("A", 1.0); ("A", 0.0); ("B", 0.5)]%string MAB.init in
   eval (MAB.get_reward "A"%string) s = Return 0.5 /\
   eval (MAB.get_reward "B"%string) s = Return 0.5 /\
   eval (MAB.get_arm_count "A"%string) s = Return 2%Z).
Proof.
  split; [intros A E calls arm I; now apply MAB_reads_after_updates|].
  cbv zeta.
  destruct (@MAB_reads_after_updates string _
              [("A", 1.0); ("A", 0.0); ("B", 0.5)]%string "A"%string)
    as [Ga Gc]; [simpl; auto|].
  destruct (@MAB_reads_after_updates string _
              [("A", 1.0); ("A", 0.0); ("B", 0.5)]%string "B"%string)
    as [Gb _]; [simpl; auto|].
  rewrite Ga, Gb, Gc.
  repeat split; f_equal; cbv [total_of count_of rewards_of]; simpl; lra.
Qed.

(** The theorem at work on the three updates of the scenario. *)
Lemma MAB_mean_consistency_witness :
  In "A"%string (map fst [("A", 1.0); ("A", 0.0); ("B", 0.5)]%string) /\
  eval (MAB.get_reward "A"%string)
    (MAB_updates [("A", 1.0); ("A", 0.0); ("B", 0.5)]%string MAB.init) =
  Return (total_of "A"%string [("A", 1.0); ("A", 0.0); ("B", 0.5)]%string /
          IZR (count_of "A"%string
                 [("A", 1.0); ("A", 0.0); ("B", 0.5)]%string)).
Proof.
  assert (I : In "A"%string
                (map fst [("A", 1.0); ("A", 0.0); ("B", 0.5)]%string)).
  { simpl. auto. }
  split; [exact I|].
  apply (proj1 MAB_mean_consistency string _ _ "A"%string I).
Defined.

(** The same scenario, run step by step: the three dictionaries after
    the three updates. *)
Example MAB_scenario_run :
  MAB_updates [("A", 1.0); ("A", 0.0); ("B", 0.5)]%string MAB.init =
  MAB.Build [("A", 0 + 1.0 + 0.0); ("B", 0 + 0.5)]%string
            [("A", 2%Z); ("B", 1%Z)]%string
            [("A", (0 + 1.0 + 0.0) / 2); ("B", (0 + 0.5) / 1)]%string.
Proof.
  unfold MAB_updates, MAB.update_reward. simpl. py_eval. reflexivity.
Qed.

(** * [MAB.get_best_arm] *)

Section BestArm.
Context {A : Type} `{EqDec A}.
Implicit Types (s : MAB.t A) (arm : A) (calls : list (A * R)).

Lemma max_by_value_snoc (first : A * R) rest x :
  MAB.max_by_value first (rest ++ [x]) =
  let best := MAB.max_by_value first rest in
  if Rlt_dec (snd best) (snd x) then x else best.
Proof. unfold MAB.max_by_value. now rewrite fold_left_app. Qed.

Lemma max_by_value_first_greatest (first : A * R) rest :
  first_greatest (first :: rest) (MAB.max_by_value first rest).
Proof.
  induction rest as [|x rest IH] using rev_ind.
  - exists [], []. simpl. repeat split; intros ? [].
  - rewrite max_by_value_snoc. cbv zeta.
    destruct IH as (before & after & E & B & L).
    set (best := MAB.max_by_value first rest) in *.
    destruct (Rlt_dec (snd best) (snd x)) as [Lt|Ge].
    + exists (first :: rest), []. split; [now rewrite app_comm_cons|].
      split; [|intros ? []].
      intros y I. rewrite E in I. apply in_app_or in I.
      destruct I as [I|[<-|I]]; auto.
      * apply B in I. lra.
      * apply L in I. lra.
    + exists before, (after ++ [x]). split.
      * rewrite app_comm_cons, E, <- app_assoc. reflexivity.
      * split; auto. intros y I. apply in_app_or in I.
        destruct I as [I|[<-|[]]]; auto. lra.
Qed.

Lemma first_greatest_max (items : list (A * R)) best x :
  first_greatest items best -> In x items -> snd x <= snd best.
Proof.
  intros (before & after & -> & B & L) I. apply in_app_or in I.
  destruct I as [I|[<-|I]]; auto; [apply B in I|]; lra.
Qed.

Lemma MAB_updates_snoc calls a r :
  MAB_updates (calls ++ [(a, r)]) MAB.init =
  MAB_updated (MAB_updates calls MAB.init) a r.
Proof.
  unfold MAB_updates at 1. rewrite run_calls_app; simpl. unfold exec.
  fold (MAB_updates calls MAB.init).
  rewrite MAB_update_reward_run; [reflexivity|].
  apply (MAB_holds_updates calls).
Qed.

Lemma MAB_average_NoDup calls :
  NoDup (dict_keys (MAB.average_reward (MAB_updates calls MAB.init))).
Proof.
  induction calls as [|[a r] calls IH] using rev_ind.
  - constructor.
  - rewrite MAB_updates_snoc. simpl. now apply dict_keys_set_NoDup.
Qed.

Lemma MAB_average_nil calls :
  MAB.average_reward (MAB_updates calls MAB.init) = [] <-> calls = [].
Proof.
  split; [|now intros ->].
  destruct calls as [|c calls] using rev_ind; auto.
  destruct c as [a r]. rewrite MAB_updates_snoc. simpl.
  intros E. apply (f_equal (fun d => dict_get d a)) in E.
  rewrite dict_get_set_same in E. discriminate.
Qed.
End BestArm.

(** C9.  [MAB.get_best_arm] after any sequence of updates: with no update
    at all it returns (None, None); otherwise it returns an arm with its
    stored estimate, that estimate is the greatest of the stored
    estimates, and among the arms of greatest estimate the returned one
    comes first in the traversal of the dictionary (every item before it
    is strictly smaller).  It leaves the object as it was. *)
Theorem MAB_get_best_arm_first_greatest :
  forall (A : Type) (E : EqDec A) (calls : list (A * R)),
    let s := MAB_updates calls MAB.init in
    exec MAB.get_best_arm s = s /\
    (eval MAB.get_best_arm s = Return (None, None) <-> calls = []) /\
    match calls with
    | [] => eval MAB.get_best_arm s = Return (None, None)
    | _ :: _ =>
        exists arm est,
          eval MAB.get_best_arm s = Return (Some arm, Some est) /\
          dict_get (MAB.average_reward s) arm = Some est /\
          eval (MAB.get_reward arm) s = Return est /\
          (forall a v, In (a, v) (MAB.average_reward s) -> v <= est) /\
          first_greatest (MAB.average_reward s) (arm, est)
    end.
Proof.
  intros A E calls s.
  pose proof (MAB_average_nil calls) as Nil.
  pose proof (MAB_average_NoDup calls) as ND.
  fold s in Nil, ND.
  unfold eval, exec, MAB.get_best_arm, bind, load, ret; simpl.
  destruct (MAB.average_reward s) as [|first rest] eqn:Items; simpl.
  - split; [reflexivity|]. split; [tauto|].
    now rewrite (proj1 Nil eq_refl).
  - assert (NE : calls <> []) by (intros Ec; apply Nil in Ec; discriminate).
    split; [reflexivity|]. split; [split; [discriminate | contradiction]|].
    pose proof (max_by_value_first_greatest first rest) as FG.
    set (best := MAB.max_by_value first rest) in *.
    assert (I : In best (first :: rest)).
    { destruct FG as (b & a & -> & _). apply in_or_app. simpl; auto. }
    assert (G : dict_get (first :: rest) (fst best) = Some (snd best)).
    { apply dict_In_get; auto. now destruct best. }
    assert (X : exists arm est,
               Return (Some (fst best), Some (snd best)) =
                 Return (Some arm, Some est) /\
               dict_get (first :: rest) arm = Some est /\
               fst (MAB.get_reward arm s) = Return est /\
               (forall a v, In (a, v) (first :: rest) -> v <= est) /\
               first_greatest (first :: rest) (arm, est)).
    { exists (fst best), (snd best). split; [reflexivity|].
      split; [exact G|]. split.
      - rewrite MAB_get_reward_run; simpl. unfold entry_R.
        now rewrite Items, G.
      - split; [|now destruct best].
        intros a v Iv. exact (first_greatest_max (a, v) FG Iv). }
    clearbody s. destruct calls; [congruence | exact X].
Qed.

(** * [UCB1]: what a call of [update_reward] does *)

Section UCB1Facts.
Context {A : Type} `{EqDec A}.
Implicit Types (s : UCB1.t A) (arm : A) (calls : list (A * R)).

Lemma dict_set_entry_R (d : dict A R) arm :
  dict_mem d arm = true -> dict_set d arm (entry_R d arm) = d.
Proof.
  unfold dict_mem, entry_R. induction d as [|[k v] d IH]; simpl.
  - discriminate.
  - destruct (eq_dec arm k) as [->|N]; [reflexivity|].
    intros M. now rewrite IH.
Qed.

Lemma IZR_succ_pos (c : Z) : (0 <= c)%Z -> 1 <= IZR (c + 1).
Proof. intros P. apply IZR_le. lia. Qed.

Lemma UCB1_update_reward_run s arm reward :
  counted (UCB1_rewards s) (UCB1_count s) ->
  UCB1.update_reward arm reward s =
  if Rlt_dec (UCB1_radicand (UCB1.beta s)
                (entry_Z (UCB1_count s) arm + 1)) 0
  then (Raise ValueError, UCB1_interrupted s arm)
  else (Return tt, UCB1_updated s arm reward).
Proof.
  intros C. destruct s as [[rw ct av] b n u].
  unfold UCB1_rewards, UCB1_count, UCB1_average in *; simpl in C.
  pose proof (counted_mem_get arm C) as Gc.
  pose proof (entry_R_get rw arm) as Gr.
  destruct (C arm) as [_ P].
  pose proof (IZR_succ_pos P) as P1.
  unfold UCB1.update_reward, UCB1_updated, UCB1_interrupted, UCB1_bonus,
    UCB1_radicand, UCB1_rewards, UCB1_count, UCB1_average,
    bind, contains, getitem, setitem, load, store,
    truediv, math_log, math_sqrt, ret, raise; simpl.
  destruct (dict_mem rw arm) eqn:M;
    repeat first [progress simpl | rewrite Gc | rewrite Gr
                 | rewrite dict_get_set_same].
  - destruct (Rle_dec _ 0) as [E|_]; [exfalso; lra|]; simpl.
    rewrite !dict_get_set_same.
    destruct (Req_dec_T _ 0) as [E|_]; [exfalso; lra|]; simpl.
    destruct (Rlt_dec _ 0) as [L|G]; simpl.
    + rewrite dict_set_entry_R by assumption. reflexivity.
    + rewrite Gr; simpl. rewrite dict_get_set_same; simpl.
      rewrite dict_get_set_same.
      destruct (Req_dec_T _ 0) as [E|_]; [exfalso; lra|]. reflexivity.
  - assert (Ez : entry_Z ct arm = 0%Z) by (unfold entry_Z; now rewrite Gc).
    assert (Er : entry_R rw arm = 0) by (unfold entry_R; now rewrite Gr).
    rewrite Ez, Er in *.
    destruct (Rle_dec _ 0) as [E|_]; [exfalso; simpl in E; lra|]; simpl.
    rewrite !dict_get_set_same.
    destruct (Req_dec_T _ 0) as [E|_]; [exfalso; lra|]; simpl.
    rewrite !dict_set_set.
    destruct (Rlt_dec _ 0) as [L|G]; simpl; [reflexivity|].
    rewrite !dict_get_set_same; simpl. rewrite !dict_get_set_same.
    destruct (Req_dec_T _ 0) as [E|_]; [exfalso; lra|].
    rewrite !dict_set_set. reflexivity.
Qed.

Lemma UCB1_holds_init b : UCB1_holds b [] (UCB1.init b).
Proof.
  split; [apply counted_nil|]. repeat split.
Qed.

Lemma UCB1_exec_update s arm reward :
  counted (UCB1_rewards s) (UCB1_count s) ->
  let s' := exec (UCB1.update_reward arm reward) s in
  UCB1.beta s' = UCB1.beta s /\
  UCB1.overall_total_count s' = (UCB1.overall_total_count s + 1)%Z /\
  UCB1_count s' =
    dict_set (UCB1_count s) arm (entry_Z (UCB1_count s) arm + 1)%Z /\ counted (UCB1_rewards s') (UCB1_count s').
Proof.
  intros C s'. subst s'. unfold exec.
  rewrite UCB1_update_reward_run by assumption.
  destruct (Rlt_dec _ 0); simpl; (do 3 (split; [reflexivity|]));
    apply counted_set; assumption.
Qed.

Lemma UCB1_holds_step b calls s a r :
  UCB1_holds b calls s ->
  UCB1_holds b (calls ++ [(a, r)]) (exec (UCB1.update_reward a r) s).
Proof.
  intros (C & B & N & Hc).
  destruct (UCB1_exec_update s a r C) as (B' & N' & C' & K).
  split; [exact K|]. split; [congruence|]. split.
  - rewrite N', N, length_app; simpl. lia.
  - intros arm. rewrite C'. unfold entry_Z at 1. rewrite dict_get_set.
    destruct (eq_dec arm a) as [->|Ne].
    + destruct (history_snoc_same a calls r) as (_ & -> & _).
      now rewrite Hc.
    + destruct (history_snoc_other calls r Ne) as (_ & -> & _).
      apply Hc.
Qed.

Lemma UCB1_holds_updates b calls :
  UCB1_holds b calls (UCB1_updates calls (UCB1.init b)).
Proof.
  induction calls as [|[a r] calls IH] using rev_ind.
  - apply UCB1_holds_init.
  - unfold UCB1_updates. rewrite run_calls_app. simpl.
    exact (UCB1_holds_step a r IH).
Qed.

Lemma UCB1_radicand_nonneg (b : R) (n : Z) :
  0 <= b -> (1 <= n)%Z -> 0 <= UCB1_radicand b n.
Proof.
  intros B N. apply IZR_le in N. unfold UCB1_radicand.
  assert (0 <= ln (IZR n)).
  { destruct (Req_dec_T (IZR n) 1) as [->|Ne]; [rewrite ln_1; lra|].
    left. rewrite <- ln_1. apply ln_increasing; lra. }
  apply Rmult_le_pos.
  - apply Rmult_le_pos; lra.
  - left. apply Rinv_0_lt_compat. lra.
Qed.

Lemma UCB1_bonus_first (b : R) : UCB1_bonus b 1 = 0.
Proof.
  unfold UCB1_bonus, UCB1_radicand. rewrite ln_1.
  replace (2 * b * 0 / 1) with 0 by lra. apply sqrt_0.
Qed.
End UCB1Facts.

(** C6.  Starting from a fresh [UCB1], after any N calls of
    [update_reward], over any arms, with any rewards and any exploration
    constant, [overall_total_count] is N. *)
Theorem UCB1_overall_total_count_is_number_of_calls :
  forall (A : Type) (E : EqDec A) (b : R) (calls : list (A * R)),
    UCB1.overall_total_count (UCB1_updates calls (UCB1.init b)) =
    Z.of_nat (List.length calls).
Proof.
  intros A E b calls. apply (UCB1_holds_updates b calls).
Qed.

(** C3.  With an exploration constant [b >= 0], every call
    [update_reward(arm, reward)] of a [UCB1] returns; with [n] the count
    of the arm after the increment, the bonus is
    [sqrt (2 * b * ln n / n)], the cumulative reward of the arm receives
    [reward + bonus], the stored estimate is that cumulative reward
    divided by [n], and on the first update of an arm the bonus is 0. *)
Theorem UCB1_update_reward_bonus :
  forall (A : Type) (E : EqDec A) (b : R) (calls : list (A * R))
         (arm : A) (reward : R),
    0 <= b ->
    let s := UCB1_updates calls (UCB1.init b) in
    let s' := exec (UCB1.update_reward arm reward) s in
    let n := (count_of arm calls + 1)%Z in
    let bonus := sqrt (2 * b * ln (IZR n) / IZR n) in
    eval (UCB1.update_reward arm reward) s = Return tt /\
    dict_get (UCB1_count s') arm = Some n /\
    UCB1.ucb s' = bonus /\
    eval UCB1.get_last_ucb s' = Return bonus /\
    dict_get (UCB1_rewards s') arm =
      Some (entry_R (UCB1_rewards s) arm + (reward + bonus)) /\
    dict_get (UCB1_average s') arm =
      Some ((entry_R (UCB1_rewards s) arm + (reward + bonus)) / IZR n) /\
    eval (UCB1.get_reward arm) s' =
      Return ((entry_R (UCB1_rewards s) arm + (reward + bonus)) / IZR n) /\
    (count_of arm calls = 0%Z -> bonus = 0).
Proof.
  intros A E b calls arm reward B s s' n bonus.
  destruct (UCB1_holds_updates b calls) as (C & Eb & _ & Hc). fold s in C, Eb, Hc.
  assert (N : (1 <= n)%Z) by (unfold n, count_of; lia).
  pose proof (UCB1_radicand_nonneg B N) as Q.
  assert (Run : UCB1.update_reward arm reward s =
                (Return tt, UCB1_updated s arm reward)).
  { rewrite UCB1_update_reward_run by assumption.
    rewrite Eb, Hc. fold n.
    destruct (Rlt_dec _ 0); [exfalso; lra | reflexivity]. }
  subst s'. unfold eval, exec. rewrite Run. simpl.
  unfold UCB1_updated, UCB1_rewards, UCB1_count, UCB1_average,
    UCB1.get_reward, within; simpl.
  rewrite MAB_get_reward_run; simpl. unfold entry_R at 1; simpl.
  rewrite !dict_get_set_same.
  fold (UCB1_count s) (UCB1_rewards s). rewrite Eb, Hc. fold n.
  unfold UCB1_bonus, UCB1_radicand. fold bonus.
  unfold entry_R. rewrite dict_get_set_same.
  repeat (split; [reflexivity|]).
  intros Z0. subst bonus n. rewrite Z0. apply UCB1_bonus_first.
Qed.

(** The theorem at work: the second update of "A" with the default
    exploration constant. *)
Lemma UCB1_update_reward_bonus_witness :
  0 <= 1 /\
  eval (UCB1.update_reward "A"%string 0)
    (UCB1_updates [("A"%string, 1)] (UCB1.init 1)) = Return tt /\
  UCB1.ucb (exec (UCB1.update_reward "A"%string 0)
              (UCB1_updates [("A"%string, 1)] (UCB1.init 1))) =
  sqrt (2 * 1 * ln (IZR (count_of "A"%string [("A"%string, 1)] + 1)) /
        IZR (count_of "A"%string [("A"%string, 1)] + 1)).
Proof.
  assert (B : 0 <= 1) by lra.
  split; [exact B|].
  pose proof (@UCB1_update_reward_bonus string _ 1 [("A"%string, 1)]
                "A"%string 0 B) as T.
  cbv zeta in T. split; apply T.
Defined.

(** Outside that domain: with the exploration constant -1, the second
    update of an arm makes [math.sqrt] raise [ValueError], and the call
    leaves the two counters incremented. *)
Lemma UCB1_negative_constant_raises :
  let s := UCB1_updates [("A"%string, 0)] (UCB1.init (-1)) in
  eval (UCB1.update_reward "A"%string 0) s = Raise ValueError /\
  UCB1.overall_total_count (exec (UCB1.update_reward "A"%string 0) s) = 2%Z /\
  dict_get (UCB1_count (exec (UCB1.update_reward "A"%string 0) s))
    "A"%string = Some 2%Z.
Proof.
  cbv zeta.
  pose proof (UCB1_holds_updates (-1) [("A"%string, 0)]) as (C & B & N & K).
  unfold eval, exec. rewrite UCB1_update_reward_run by assumption.
  rewrite B, K.
  change (count_of "A"%string [("A"%string, 0%R)] + 1)%Z with 2%Z.
  assert (L : UCB1_radicand (-1) 2 < 0).
  { unfold UCB1_radicand. pose proof ln_lt_2. lra. }
  destruct (Rlt_dec _ 0) as [_|G]; [|contradiction].
  simpl. rewrite N.
  unfold UCB1_count at 1. simpl. rewrite K, dict_get_set_same.
  repeat split.
Qed.

(** * [TS]: what a call of [update_reward] does *)

Section TSFacts.
Context {A : Type} `{EqDec A} {G : Type}.
Implicit Types (s : TS.t A G) (arm : A) (calls : list (A * R)).

Lemma dict_mem_get (V : Type) (d : dict A V) arm :
  dict_mem d arm = true -> exists v, dict_get d arm = Some v.
Proof. unfold dict_mem. destruct (dict_get d arm); [eauto | discriminate]. Qed.

Lemma dict_mem_false_get (V : Type) (d : dict A V) arm :
  dict_mem d arm = false -> dict_get d arm = None.
Proof. unfold dict_mem. now destruct (dict_get d arm). Qed.

Lemma dict_set_get (V : Type) (d : dict A V) arm v :
  dict_get d arm = Some v -> dict_set d arm v = d.
Proof.
  induction d as [|[k v0] d IH]; simpl; [discriminate|].
  destruct (eq_dec arm k) as [->|N].
  - now intros [= ->].
  - intros E. now rewrite IH.
Qed.

Lemma TS_update_reward_run s arm reward :
  TS_keyed s ->
  TS.update_reward arm reward s = (Return tt, TS_updated s arm reward).
Proof.
  intros K. destruct (K arm) as (Ka & Kb & Kl).
  destruct s as [ct al be ld g]; simpl in *.
  unfold TS.update_reward, TS_updated, bind, contains, getitem, setitem,
    ret; simpl.
  unfold shape, entry_Z, entry_R.
  destruct (dict_mem ct arm) eqn:M; simpl.
  - destruct (dict_mem_get _ _ M) as [c Ec].
    destruct (dict_mem_get _ _ Ka) as [a Ea].
    destruct (dict_mem_get _ _ Kb) as [b Eb].
    destruct (dict_mem_get _ _ Kl) as [l El].
    rewrite Ec, Ea, Eb, El; simpl. rewrite Ea; simpl. rewrite Eb; simpl.
    now rewrite (dict_set_get _ _ El).
  - apply dict_mem_false_get in M, Ka, Kb, Kl.
    rewrite M, Ka, Kb, Kl.
    repeat first [progress simpl | rewrite dict_get_set_same].
    now rewrite !dict_set_set.
Qed.

Lemma TS_keyed_init (g : G) : TS_keyed (TS.init g).
Proof. intros arm. repeat split. Qed.

Lemma TS_keyed_updated s arm reward :
  TS_keyed s -> TS_keyed (TS_updated s arm reward).
Proof.
  intros K arm'. destruct (K arm') as (Ka & Kb & Kl). simpl.
  rewrite !dict_mem_set. now destruct (eq_dec arm' arm).
Qed.

Lemma TS_holds_init (g : G) : TS_holds [] (TS.init g).
Proof.
  split; [apply TS_keyed_init|]. split; [constructor|]. now intros arm.
Qed.

Lemma TS_holds_step calls s a r :
  TS_holds calls s ->
  TS_holds (calls ++ [(a, r)]) (exec (TS.update_reward a r) s).
Proof.
  intros (K & ND & Hs). unfold exec. rewrite TS_update_reward_run by assumption.
  simpl. split; [now apply TS_keyed_updated|].
  split; [simpl; now apply dict_keys_set_NoDup|].
  intros arm. simpl. rewrite !dict_get_set.
  destruct (eq_dec arm a) as [->|N].
  - destruct (history_snoc_same a calls r) as (_ & -> & ->).
    rewrite rewards_of_snoc, eq_dec_refl.
    unfold alpha_of, beta_of. rewrite !fold_left_app; simpl.
    specialize (Hs a). destruct (K a) as (Ka & Kb & _).
    unfold entry_Z, shape, dict_mem in *.
    destruct (updated a calls) eqn:U.
    + destruct Hs as (-> & -> & ->). auto.
    + rewrite Hs in *.
      destruct (dict_get (TS.alpha s) a); [discriminate|].
      destruct (dict_get (TS.beta s) a); [discriminate|].
      unfold updated, count_of in *.
      destruct (rewards_of a calls); [auto | discriminate].
  - destruct (history_snoc_other calls r N) as (_ & -> & ->).
    rewrite rewards_of_snoc, eq_dec_neq, app_nil_r by congruence.
    apply Hs.
Qed.

Lemma TS_holds_updates (g : G) calls :
  TS_holds calls (TS_updates calls (TS.init g)).
Proof.
  induction calls as [|[a r] calls IH] using rev_ind.
  - apply TS_holds_init.
  - unfold TS_updates. rewrite run_calls_app. simpl.
    exact (TS_holds_step a r IH).
Qed.

Lemma shapes_sum (rewards : list R) :
  alpha_of rewards + beta_of rewards = INR (List.length rewards) + 2.
Proof.
  unfold alpha_of, beta_of.
  induction rewards as [|r rewards IH] using rev_ind.
  - simpl. lra.
  - rewrite !fold_left_app, length_app, plus_INR; simpl. lra.
Qed.

Lemma shapes_binary (rewards : list R) :
  Forall (fun r => r = 0 \/ r = 1) rewards ->
  1 <= alpha_of rewards /\ 1 <= beta_of rewards.
Proof.
  unfold alpha_of, beta_of.
  induction rewards as [|r rewards IH] using rev_ind; intros F.
  - simpl. lra.
  - apply Forall_app in F. destruct F as [F Fr].
    inversion Fr as [|? ? Hr _]; subst.
    rewrite !fold_left_app; simpl. specialize (IH F).
    destruct Hr; subst; lra.
Qed.

Lemma count_of_INR arm calls :
  IZR (count_of arm calls) = INR (List.length (rewards_of arm calls)).
Proof. unfold count_of. now rewrite <- INR_IZR_INZ. Qed.

Lemma rewards_of_Forall (P : R -> Prop) arm calls :
  Forall (fun c => P (snd c)) calls -> Forall P (rewards_of arm calls).
Proof.
  unfold rewards_of. induction 1 as [|[a r] calls Pc F IH]; simpl.
  - constructor.
  - destruct (eq_dec a arm); simpl; auto.
Qed.
End TSFacts.

(** C4.  Thompson sampling: after any sequence of calls of
    [update_reward] with rewards in {0, 1}, every arm that was updated
    has [alpha + beta = count + 2]; [alpha] and [beta] are what the
    rewards of the arm add to the seed 1 (the reward to [alpha],
    [1 - reward] to [beta]), neither is below 1, and [count] is the
    number of updates of the arm. *)
Theorem TS_alpha_plus_beta :
  forall (A : Type) (E : EqDec A) (G : Type) (g : G)
         (calls : list (A * R)) (arm : A),
    Forall (fun c => snd c = 0 \/ snd c = 1) calls ->
    In arm (map fst calls) ->
    let s := TS_updates calls (TS.init g) in
    exists a b c,
      dict_get (TS.alpha s) arm = Some a /\
      dict_get (TS.beta s) arm = Some b /\
      dict_get (TS.total_count s) arm = Some c /\
      eval (TS.get_arm_count arm) s = Return c /\
      a + b = IZR c + 2 /\
      a = alpha_of (rewards_of arm calls) /\
      b = beta_of (rewards_of arm calls) /\
      c = count_of arm calls /\
      1 <= a /\ 1 <= b.
Proof.
  intros A E G g calls arm F I s.
  destruct (TS_holds_updates g calls) as (_ & _ & Hs). fold s in Hs.
  specialize (Hs arm). apply updated_In in I. rewrite I in Hs.
  destruct Hs as (Ec & Ea & Eb).
  destruct (shapes_binary (rewards_of_Forall _ arm F)) as [La Lb].
  exists (alpha_of (rewards_of arm calls)), (beta_of (rewards_of arm calls)),
    (count_of arm calls).
  repeat (split; [assumption|]). split.
  - unfold eval, TS.get_arm_count, bind, contains, getitem, ret, dict_mem.
    simpl. rewrite Ec. simpl. now rewrite Ec.
  - split; [|auto]. rewrite count_of_INR. apply shapes_sum.
Qed.

(** The theorem at work: rewards 1, 1, 0 for "A". *)
Lemma TS_alpha_plus_beta_witness :
  Forall (fun c => snd c = 0 \/ snd c = 1)
    [("A", 1); ("A", 1); ("A", 0)]%string /\
  In "A"%string (map fst [("A", 1); ("A", 1); ("A", 0)]%string) /\
  exists a b c,
    dict_get (TS.alpha (TS_updates [("A", 1); ("A", 1); ("A", 0)]%string
                          (TS.init tt))) "A"%string = Some a /\
    dict_get (TS.beta (TS_updates [("A", 1); ("A", 1); ("A", 0)]%string
                         (TS.init tt))) "A"%string = Some b /\
    dict_get (TS.total_count (TS_updates [("A", 1); ("A", 1); ("A", 0)]%string
                                (TS.init tt))) "A"%string = Some c /\
    a + b = IZR c + 2.
Proof.
  assert (F : Forall (fun c : string * R => snd c = 0 \/ snd c = 1)
                [("A", 1); ("A", 1); ("A", 0)]%string).
  { repeat (apply Forall_cons; [simpl; auto|]). apply Forall_nil. }
  assert (I : In "A"%string
                (map fst [("A", 1); ("A", 1); ("A", 0)]%string)).
  { simpl. auto. }
  split; [exact F|]. split; [exact I|].
  destruct (@TS_alpha_plus_beta string _ unit tt _ "A"%string F I)
    as (a & b & c & Ea & Eb & Ec & _ & S & _).
  exists a, b, c. auto.
Defined.

(** C10.  Thompson sampling, with rewards in {0, 1}: [get_reward] never
    divides by zero, for any arm, after any sequence of updates.  For an
    arm that was never updated it returns 0 without evaluating the
    quotient; for an arm updated [k >= 1] times [alpha] and [beta] are at
    least 1, the denominator [alpha - 1 + beta - 1] is [k], and the
    quotient is returned.  The call leaves the object as it was. *)
Theorem TS_get_reward_total :
  forall (A : Type) (E : EqDec A) (G : Type) (g : G)
         (calls : list (A * R)) (arm : A),
    Forall (fun c => snd c = 0 \/ snd c = 1) calls ->
    let s := TS_updates calls (TS.init g) in
    exec (TS.get_reward arm) s = s /\
    eval (TS.get_reward arm) s <> Raise ZeroDivisionError /\
    if updated arm calls then
      exists a b,
        dict_get (TS.alpha s) arm = Some a /\
        dict_get (TS.beta s) arm = Some b /\
        1 <= a /\ 1 <= b /\
        a - 1 + b - 1 = IZR (count_of arm calls) /\
        (1 <= count_of arm calls)%Z /\
        eval (TS.get_reward arm) s = Return ((a - 1) / (a - 1 + b - 1))
    else
      eval (TS.get_reward arm) s = Return 0.
Proof.
  intros A E G g calls arm F s.
  destruct (TS_holds_updates g calls) as (_ & _ & Hs). fold s in Hs.
  specialize (Hs arm).
  destruct (shapes_binary (rewards_of_Forall _ arm F)) as [La Lb].
  unfold eval, exec, TS.get_reward, bind, contains, getitem, truediv,
    ret, raise, dict_mem; simpl.
  destruct (updated arm calls) eqn:U.
  - destruct Hs as (Ec & Ea & Eb). rewrite Ec; simpl. rewrite Ea; simpl.
    rewrite Ea; simpl. rewrite Eb; simpl.
    set (a := alpha_of (rewards_of arm calls)) in *.
    set (b := beta_of (rewards_of arm calls)) in *.
    assert (K : (1 <= count_of arm calls)%Z).
    { unfold updated, count_of in *.
      destruct (rewards_of arm calls); [discriminate | simpl; lia]. }
    assert (D : a - 1 + b - 1 = IZR (count_of arm calls)).
    { pose proof (shapes_sum (rewards_of arm calls)) as S.
      fold a b in S. rewrite count_of_INR. lra. }
    assert (P : 1 <= IZR (count_of arm calls)) by now apply IZR_le.
    destruct (Req_dec_T (a - 1 + b - 1) 0) as [Z|NZ]; [exfalso; lra|].
    simpl. split; [reflexivity|]. split; [discriminate|].
    exists a, b. auto 10.
  - rewrite Hs; simpl. split; [reflexivity|]. split; [discriminate|].
    reflexivity.
Qed.

(** The theorem at work: rewards 1, 1, 0 for "A". *)
Lemma TS_get_reward_total_witness :
  Forall (fun c => snd c = 0 \/ snd c = 1)
    [("A", 1); ("A", 1); ("A", 0)]%string /\
  eval (TS.get_reward "A"%string)
    (TS_updates [("A", 1); ("A", 1); ("A", 0)]%string (TS.init tt))
  <> Raise ZeroDivisionError.
Proof.
  assert (F : Forall (fun c : string * R => snd c = 0 \/ snd c = 1)
                [("A", 1); ("A", 1); ("A", 0)]%string).
  { repeat (apply Forall_cons; [simpl; auto|]). apply Forall_nil. }
  split; [exact F|].
  exact (proj1 (proj2 (@TS_get_reward_total string _ unit tt _ "A"%string F))).
Defined.

(** C10, the failing case: one update with the float reward 2.0**53.
    [alpha] becomes 1 + 2**53, which rounds to 2**53, [beta] becomes
    1 + (1 - 2**53) = -(2**53 - 2), so that
    [alpha - 1 + beta - 1 = (2**53 - 1) - (2**53 - 2) - 1] is 0.0, and
    [get_reward] raises [ZeroDivisionError] for an arm that was
    updated. *)
Lemma TS_get_reward_divides_by_zero :
  let s := exec (TS64.update_reward "A"%string 9007199254740992%float)
             TS64.init in
  eval (TS64.update_reward "A"%string 9007199254740992%float) TS64.init =
    Return tt /\
  dict_get (TS64.total_count s) "A"%string = Some 1%Z /\
  dict_get (TS64.alpha s) "A"%string = Some 9007199254740992%float /\
  dict_get (TS64.beta s) "A"%string = Some (-9007199254740990)%float /\
  eval (TS64.get_reward "A"%string) s = Raise ZeroDivisionError.
Proof. vm_compute. repeat split. Qed.

(** The scenario of the specification: after update("A", 1),
    update("A", 1), update("A", 0), alpha["A"] is 3, beta["A"] is 2 and
    get_reward("A") is 2/3. *)
Example TS_scenario :
  let s := TS_updates [("A", 1); ("A", 1); ("A", 0)]%string (TS.init tt) in
  entry_R (TS.alpha s) "A"%string = 3 /\
  entry_R (TS.beta s) "A"%string = 2 /\
  eval (TS.get_arm_count "A"%string) s = Return 3%Z /\
  eval (TS.get_reward "A"%string) s = Return (2 / 3).
Proof.
  cbv zeta. unfold TS.get_reward, TS.get_arm_count. py_eval.
  unfold entry_R. simpl.
  repeat split; [lra | lra | f_equal; lra].
Qed.

(** * [TS.get_best_arm] *)

Section TSBestArm.
Context {A : Type} `{EqDec A} {G : Type} (rnd : random G).
Implicit Types (s : TS.t A G) (arm : A) (calls : list (A * R)).

Lemma draw_all_length params g :
  List.length (fst (draw_all rnd params g)) = List.length params.
Proof.
  revert g. induction params as [|[a b] params IH]; intros g; simpl; auto.
  destruct (beta_draw rnd a b g) as [x g']. specialize (IH g').
  destruct (draw_all rnd params g'). simpl in *. now rewrite IH.
Qed.

(** The loop of [get_best_arm], from any object in which the arms of the
    traversal have positive shape parameters. *)
Lemma TS_best_arm_loop arms : forall ct al be ld g best,
  (forall arm, In arm arms ->
     exists a b, dict_get al arm = Some a /\ dict_get be arm = Some b /\
                 0 < a /\ 0 < b) ->
  for_fold arms best (TS.best_arm_round rnd) (TS.Build ct al be ld g) =
  let draws := draw_all rnd (TS_params al be arms) g in
  let items := combine arms (fst draws) in
  (Return (running_best items best),
   TS.Build ct al be (dict_set_all items ld) (snd draws)).
Proof.
  induction arms as [|arm arms IH]; intros ct al be ld g best P.
  - reflexivity.
  - destruct (P arm (or_introl eq_refl)) as (a & b & Ea & Eb & Pa & Pb).
    assert (Sa : shape al arm = a) by (unfold shape; now rewrite Ea).
    assert (Sb : shape be arm = b) by (unfold shape; now rewrite Eb).
    assert (P' : forall arm', In arm' arms ->
              exists a b, dict_get al arm' = Some a /\
                          dict_get be arm' = Some b /\ 0 < a /\ 0 < b).
    { intros arm' I. apply P. now right. }
    simpl. rewrite Sa, Sb. unfold bind at 1. unfold TS.best_arm_round at 1.
    unfold bind, getitem, setitem, betavariate, load, store, ret, raise.
    repeat first [progress simpl | rewrite Ea | rewrite Eb].
    destruct (Rle_dec a 0) as [?|_]; [exfalso; lra|].
    destruct (Rle_dec b 0) as [?|_]; [exfalso; lra|].
    unfold bind, load, store, ret; simpl.
    destruct (beta_draw rnd a b g) as [x g'] eqn:D. simpl.
    rewrite dict_get_set_same.
    destruct (Rge_dec x (snd best)) eqn:Dec; simpl;
      rewrite ?dict_get_set_same; rewrite IH by assumption; cbv zeta;
      destruct (draw_all rnd (TS_params al be arms) g') as [xs g''];
      unfold running_best, dict_set_all; simpl; rewrite Dec; reflexivity.
Qed.

Lemma running_best_snoc (items : list (A * R)) item best :
  running_best (items ++ [item]) best =
  let b := running_best items best in
  if Rge_dec (snd item) (snd b) then (Some (fst item), snd item) else b.
Proof. unfold running_best. now rewrite fold_left_app. Qed.

Lemma running_best_nonneg (items : list (A * R)) :
  (forall x, In x items -> 0 <= snd x) ->
  match items with
  | [] => running_best items (None, 0) = (None, 0)
  | _ :: _ =>
      exists arm x, running_best items (None, 0) = (Some arm, x) /\
                    last_greatest items (arm, x)
  end.
Proof.
  induction items as [|item items IH] using rev_ind; intros P;
    [reflexivity|].
  assert (Q : exists arm x,
             running_best (items ++ [item]) (None, 0) = (Some arm, x) /\
             last_greatest (items ++ [item]) (arm, x)).
  { rewrite running_best_snoc. cbv zeta.
    assert (P' : forall x, In x items -> 0 <= snd x).
    { intros x I. apply P. apply in_or_app. now left. }
    assert (Pi : 0 <= snd item).
    { apply P. apply in_or_app. right. now left. }
    specialize (IH P'). destruct items as [|i0 items'].
    - simpl. destruct (Rge_dec (snd item) 0) as [_|N]; [|exfalso; lra].
      exists (fst item), (snd item). split; [reflexivity|].
      exists [], []. destruct item. simpl. repeat split; intros ? [].
    - destruct IH as (arm & x & -> & before & after & Eq & B & L). simpl snd.
      destruct (Rge_dec (snd item) x) as [Ge|Lt].
      + exists (fst item), (snd item). split; [reflexivity|].
        exists (i0 :: items'), []. destruct item as [k v].
        split; [reflexivity|]. split; [|intros ? []].
        intros y I. rewrite Eq in I. apply in_app_or in I.
        simpl in Ge |- *.
        destruct I as [I|[<-|I]]; simpl.
        * apply B in I. simpl in I. lra.
        * lra.
        * apply L in I. simpl in I. lra.
      + exists arm, x. split; [reflexivity|].
        exists before, (after ++ [item]). split.
        * rewrite Eq, <- app_assoc. reflexivity.
        * split; auto. intros y I. apply in_app_or in I.
          destruct I as [I|[<-|[]]]; auto. simpl. lra. }
  destruct (items ++ [item]) eqn:D; [|exact Q].
  now destruct items.
Qed.

Lemma dict_set_all_get (items : list (A * R)) : forall d k v,
  NoDup (map fst items) -> In (k, v) items ->
  dict_get (dict_set_all items d) k = Some v.
Proof.
  unfold dict_set_all.
  induction items as [|[k0 v0] items IH] using rev_ind; intros d k v ND I.
  - destruct I.
  - rewrite fold_left_app. simpl. rewrite dict_get_set.
    rewrite map_app in ND. simpl in ND.
    apply in_app_or in I. destruct I as [I|[[= -> ->]|[]]].
    + destruct (eq_dec k k0) as [->|N].
      * exfalso. apply NoDup_remove_2 in ND. rewrite app_nil_r in ND.
        apply ND. change k0 with (fst (k0, v)). now apply in_map.
      * apply IH; auto. apply NoDup_remove_1 in ND.
        now rewrite app_nil_r in ND.
    + now rewrite eq_dec_refl.
Qed.

Lemma draw_all_nonneg params : forall g x,
  (forall a b g, 0 <= fst (beta_draw rnd a b g)) ->
  In x (fst (draw_all rnd params g)) -> 0 <= x.
Proof.
  induction params as [|[a b] params IH]; intros g x P I; [destruct I|].
  simpl in I. pose proof (P a b g) as Px.
  destruct (beta_draw rnd a b g) as [y g']. specialize (IH g' x P).
  destruct (draw_all rnd params g'). simpl in *. destruct I as [<-|I]; auto.
Qed.
End TSBestArm.

Lemma map_fst_combine (X Y : Type) (xs : list X) : forall ys : list Y,
  List.length xs = List.length ys -> map fst (combine xs ys) = xs.
Proof.
  induction xs as [|x xs IH]; intros [|y ys] L; simpl in *; try congruence.
  f_equal. apply IH. lia.
Qed.

Section TSSelection.
Context {A : Type} `{EqDec A} {G : Type} (rnd : random G).
Implicit Types (s : TS.t A G) (arm : A) (calls : list (A * R)).

Lemma TS_get_best_arm_run s :
  (forall arm, In arm (dict_keys (TS.total_count s)) ->
     exists a b, dict_get (TS.alpha s) arm = Some a /\
                 dict_get (TS.beta s) arm = Some b /\ 0 < a /\ 0 < b) ->
  let arms := dict_keys (TS.total_count s) in
  let draws := draw_all rnd (TS_params (TS.alpha s) (TS.beta s) arms)
                 (TS.gen s) in
  let samples := combine arms (fst draws) in
  let best := running_best samples (None, 0) in
  TS.get_best_arm rnd s =
  (Return (match fst best with
           | None => (None, None)
           | Some arm => (Some arm, Some (snd best))
           end),
   TS.Build (TS.total_count s) (TS.alpha s) (TS.beta s)
            (dict_set_all samples (TS.last_drawn s)) (snd draws)).
Proof.
  intros P. cbv zeta. destruct s as [ct al be ld g]. simpl in *.
  unfold TS.get_best_arm. unfold bind at 1. unfold load at 1. simpl.
  unfold bind. rewrite TS_best_arm_loop by assumption. cbv zeta.
  destruct (running_best _ _) as [[arm|] x]; reflexivity.
Qed.

Lemma TS_keys_updated calls s arm :
  TS_holds calls s ->
  In arm (dict_keys (TS.total_count s)) <-> In arm (map fst calls).
Proof.
  intros (_ & _ & Hs). specialize (Hs arm).
  rewrite <- updated_In, <- dict_mem_keys. unfold dict_mem.
  destruct (updated arm calls).
  - destruct Hs as (-> & _). tauto.
  - rewrite Hs. tauto.
Qed.

Lemma TS_binary_shapes calls s arm :
  TS_holds calls s ->
  Forall (fun c => snd c = 0 \/ snd c = 1) calls ->
  In arm (dict_keys (TS.total_count s)) ->
  exists a b, dict_get (TS.alpha s) arm = Some a /\
              dict_get (TS.beta s) arm = Some b /\ 0 < a /\ 0 < b.
Proof.
  intros Hs F I. apply (TS_keys_updated arm Hs) in I.
  apply updated_In in I. destruct Hs as (_ & _ & Hs). specialize (Hs arm).
  rewrite I in Hs. destruct Hs as (_ & Ea & Eb).
  destruct (shapes_binary (rewards_of_Forall _ arm F)) as [La Lb].
  eexists _, _. split; [exact Ea|]. split; [exact Eb|]. lra.
Qed.
End TSSelection.

(** C2, as the code has it.  Thompson sampling, after updates with
    rewards in {0, 1} and with a generator whose Beta draws are not
    negative: [get_best_arm] draws one sample for every arm that was
    updated, in the traversal order of [total_count], each with the
    [alpha] and [beta] of its arm and from the generator as the previous
    draw left it; it stores each sample as the [last_drawn] of its arm
    and changes nothing else; with no arm it returns (None, None),
    otherwise it returns an arm with its sample, which is the greatest
    sample, and among the arms of greatest sample the returned one comes
    last in the traversal: a later sample that equals the running best
    replaces it. *)
Theorem TS_get_best_arm_last_greatest :
  forall (A : Type) (E : EqDec A) (G : Type) (rnd : random G) (g : G)
         (calls : list (A * R)),
    (forall a b g', 0 <= fst (beta_draw rnd a b g')) ->
    Forall (fun c => snd c = 0 \/ snd c = 1) calls ->
    let s := TS_updates calls (TS.init g) in
    let arms := dict_keys (TS.total_count s) in
    let draws :=
      draw_all rnd (TS_params (TS.alpha s) (TS.beta s) arms) (TS.gen s) in
    let samples := combine arms (fst draws) in
    let s' := exec (TS.get_best_arm rnd) s in
    (forall arm, In arm arms <-> In arm (map fst calls)) /\
    NoDup arms /\
    List.length (fst draws) = List.length arms /\
    TS.gen s' = snd draws /\
    TS.total_count s' = TS.total_count s /\
    TS.alpha s' = TS.alpha s /\
    TS.beta s' = TS.beta s /\
    (forall arm x, In (arm, x) samples ->
       dict_get (TS.last_drawn s') arm = Some x /\
       eval (TS.get_last_drawn_value arm) s' = Return x) /\
    match calls with
    | [] => eval (TS.get_best_arm rnd) s = Return (None, None)
    | _ :: _ =>
        exists arm x,
          eval (TS.get_best_arm rnd) s = Return (Some arm, Some x) /\
          last_greatest samples (arm, x)
    end.
Proof.
  intros A E G rnd g calls Pos F s arms draws samples s'.
  pose proof (TS_holds_updates g calls) as Hs. fold s in Hs.
  assert (Keys : forall arm, In arm arms <-> In arm (map fst calls)).
  { intros arm. apply (TS_keys_updated arm Hs). }
  assert (ND : NoDup arms) by apply Hs.
  assert (Len : List.length (fst draws) = List.length arms).
  { unfold draws. rewrite draw_all_length. unfold TS_params.
    apply length_map. }
  assert (Run := TS_get_best_arm_run rnd s
                   (fun arm I => TS_binary_shapes arm Hs F I)).
  cbv zeta in Run. fold arms in Run. fold draws in Run. fold samples in Run.
  subst s'. unfold eval, exec. rewrite Run. simpl.
  do 7 (split; [first [assumption | reflexivity]|]).
  assert (NDs : NoDup (map fst samples)).
  { unfold samples. now rewrite map_fst_combine. }
  split.
  - intros arm x I.
    pose proof (dict_set_all_get samples (TS.last_drawn s) arm x NDs I) as L.
    split; [exact L|].
    unfold TS.get_last_drawn_value, bind, contains, getitem, ret, dict_mem.
    simpl. rewrite L. simpl. now rewrite L.
  - assert (Pos' : forall x, In x samples -> 0 <= snd x).
    { intros [arm x] I. simpl. apply in_combine_r in I.
      unfold draws in I. now apply draw_all_nonneg in I. }
    pose proof (running_best_nonneg samples Pos') as RB.
    assert (Nil : samples = [] <-> calls = []).
    { split.
      - intros Es. destruct calls as [|[a r] calls']; [reflexivity|].
        exfalso. assert (I : In a arms) by (apply Keys; simpl; auto).
        destruct arms as [|a0 arms'] eqn:Ea; [destruct I|].
        destruct (fst draws); [discriminate|]. discriminate.
      - intros Ec. assert (Ea : arms = []).
        { destruct arms as [|a0 arms'] eqn:Ea; [reflexivity|].
          assert (I : In a0 (map fst calls)) by (apply Keys; simpl; auto).
          rewrite Ec in I. destruct I. }
        unfold samples. now rewrite Ea. }
    clearbody s. clear Run Hs. destruct calls as [|c calls'].
    + rewrite (proj2 Nil eq_refl) in *. simpl. reflexivity.
    + destruct samples as [|i0 samples'] eqn:Es.
      { discriminate (proj1 Nil eq_refl). }
      destruct RB as (arm & x & -> & LG). simpl. eauto.
Qed.

(** The theorem at work: arms "A" and "B", one reward 1 each, every draw
    1/2. *)
Lemma TS_get_best_arm_last_greatest_witness :
  (forall a b g', 0 <= fst (beta_draw halves a b g')) /\
  Forall (fun c => snd c = 0 \/ snd c = 1) [("A", 1); ("B", 1)]%string /\
  exists arm x,
    eval (TS.get_best_arm halves)
      (TS_updates [("A", 1); ("B", 1)]%string (TS.init 0%nat)) =
      Return (Some arm, Some x) /\
    last_greatest
      (combine
         (dict_keys (TS.total_count
            (TS_updates [("A", 1); ("B", 1)]%string (TS.init 0%nat))))
         (fst (draw_all halves
            (TS_params
               (TS.alpha
                  (TS_updates [("A", 1); ("B", 1)]%string (TS.init 0%nat)))
               (TS.beta
                  (TS_updates [("A", 1); ("B", 1)]%string (TS.init 0%nat)))
               (dict_keys (TS.total_count
                  (TS_updates [("A", 1); ("B", 1)]%string (TS.init 0%nat)))))
            (TS.gen
               (TS_updates [("A", 1); ("B", 1)]%string (TS.init 0%nat))))))
      (arm, x).
Proof.
  assert (P : forall a b g', 0 <= fst (beta_draw halves a b g')).
  { intros a b g'. simpl. lra. }
  assert (F : Forall (fun c : string * R => snd c = 0 \/ snd c = 1)
                [("A", 1); ("B", 1)]%string).
  { repeat (apply Forall_cons; [simpl; auto|]). apply Forall_nil. }
  split; [exact P|]. split; [exact F|].
  apply (@TS_get_best_arm_last_greatest string _ nat halves 0%nat _ P F).
Defined.

(** C2, the claim as stated fails.  Arms "A" and "B" are updated once
    each, in that order, and both draws are 1/2: "A" is met first and
    becomes the running best, the equal sample of "B" then replaces it,
    and [get_best_arm] returns "B", which is not the first arm of
    greatest sample. *)
Lemma TS_get_best_arm_tie_not_first :
  let s := TS_updates [("A", 1); ("B", 1)]%string (TS.init 0%nat) in
  let s' := exec (TS.get_best_arm halves) s in
  dict_keys (TS.total_count s) = ["A"; "B"]%string /\
  dict_get (TS.last_drawn s') "A"%string = Some (1 / 2) /\
  dict_get (TS.last_drawn s') "B"%string = Some (1 / 2) /\
  eval (TS.get_best_arm halves) s = Return (Some "B"%string, Some (1 / 2)) /\
  ~ first_greatest [("A", 1 / 2); ("B", 1 / 2)]%string ("B"%string, 1 / 2).
Proof.
  cbv zeta.
  assert (Es : TS_updates [("A", 1); ("B", 1)]%string (TS.init 0%nat) =
          TS.Build [("A", 1%Z); ("B", 1%Z)]%string
                   [("A", 1 + 1); ("B", 1 + 1)]%string
                   [("A", 1 + (1 - 1)); ("B", 1 + (1 - 1))]%string
                   [("A", 0); ("B", 0)]%string 0%nat) by reflexivity.
  rewrite Es. unfold TS.get_best_arm, TS.best_arm_round. py_eval.
  do 4 (split; [reflexivity|]).
  intros (before & after & Eq & B & _).
  destruct before as [|x before].
  - simpl in Eq. inversion Eq.
  - assert (Ex : x = ("A"%string, 1 / 2)) by (simpl in Eq; congruence).
    specialize (B x (or_introl eq_refl)). rewrite Ex in B. simpl in B. lra.
Qed.

(** * Arms that were never updated *)

Section Unseen.
Context {A : Type} `{EqDec A} {G : Type}.
Implicit Types (arm : A) (calls : list (A * R)).

Lemma updated_not_In arm calls :
  ~ In arm (map fst calls) -> updated arm calls = false.
Proof.
  intros N. destruct (updated arm calls) eqn:U; [|reflexivity].
  now apply updated_In in U.
Qed.

Lemma MAB_unseen arm calls :
  ~ In arm (map fst calls) ->
  dict_get (MAB.average_reward (MAB_updates calls MAB.init)) arm = None.
Proof.
  intros N. destruct (MAB_holds_updates calls) as [_ Hs].
  destruct (Hs arm) as (_ & _ & _ & Ea).
  now rewrite (updated_not_In _ _ N) in Ea.
Qed.

Lemma UCB1_unseen (b : R) arm calls :
  ~ In arm (map fst calls) ->
  dict_get (UCB1_average (UCB1_updates calls (UCB1.init b))) arm = None.
Proof.
  induction calls as [|[a r] calls IH] using rev_ind; intros N.
  - reflexivity.
  - rewrite map_app, in_app_iff in N. simpl in N.
    unfold UCB1_updates. rewrite run_calls_app. simpl.
    fold (UCB1_updates calls (UCB1.init b)).
    destruct (UCB1_holds_updates b calls) as (C & _).
    unfold exec. rewrite UCB1_update_reward_run by assumption.
    destruct (Rlt_dec _ 0); simpl.
    + apply IH. tauto.
    + unfold UCB1_average. simpl.
      rewrite dict_get_set_other by (intros ->; tauto).
      apply IH. tauto.
Qed.

Lemma TS_unseen (g : G) arm calls :
  ~ In arm (map fst calls) ->
  dict_get (TS.total_count (TS_updates calls (TS.init g))) arm = None.
Proof.
  intros N. destruct (TS_holds_updates g calls) as (_ & _ & Hs).
  specialize (Hs arm). now rewrite (updated_not_In _ _ N) in Hs.
Qed.

Lemma SoftMax_updates_base calls : forall s : SoftMax.t A G,
  SoftMax_updates calls s =
  SoftMax.Build (MAB_updates calls (SoftMax.base s))
                (SoftMax.tau s) (SoftMax.gen s).
Proof.
  induction calls as [|[a r] calls IH]; intros s.
  - now destruct s.
  - unfold SoftMax_updates, MAB_updates in *. simpl. rewrite IH.
    unfold exec, SoftMax.update_reward, within. simpl.
    now destruct (MAB.update_reward a r (SoftMax.base s)).
Qed.
End Unseen.

(** C5.  For each of [MAB], [UCB1], [TS] and [SoftMax]: after any
    sequence of updates, [get_reward] of an arm that was never updated
    returns 0; and [get_best_arm] of an object on which no arm was ever
    updated returns (None, None). *)
Theorem unseen_arm_defaults :
  forall (A : Type) (E : EqDec A) (G : Type) (rnd : random G) (g : G)
         (b tau : R) (calls : list (A * R)) (arm : A),
    ~ In arm (map fst calls) ->
    (eval (MAB.get_reward arm) (MAB_updates calls MAB.init) = Return 0 /\
     eval (UCB1.get_reward arm) (UCB1_updates calls (UCB1.init b)) =
       Return 0 /\
     eval (TS.get_reward arm) (TS_updates calls (TS.init g)) = Return 0 /\
     eval (SoftMax.get_reward arm)
       (SoftMax_updates calls (SoftMax.init tau g)) = Return 0) /\
    (eval MAB.get_best_arm (@MAB.init A) = Return (None, None) /\
     eval UCB1.get_best_arm (@UCB1.init A b) = Return (None, None) /\
     eval (TS.get_best_arm rnd) (@TS.init A G g) = Return (None, None) /\
     eval (SoftMax.get_best_arm rnd) (@SoftMax.init A G tau g) =
       Return (None, None)).
Proof.
  intros A E G rnd g b tau calls arm N. split.
  - split; [|split; [|split]].
    + unfold eval. rewrite MAB_get_reward_run. simpl.
      unfold entry_R. now rewrite MAB_unseen.
    + unfold eval, UCB1.get_reward, within.
      rewrite MAB_get_reward_run. simpl.
      unfold entry_R. fold (UCB1_average (UCB1_updates calls (UCB1.init b))).
      now rewrite UCB1_unseen.
    + unfold eval, TS.get_reward, bind, contains, ret, dict_mem. simpl.
      now rewrite TS_unseen.
    + rewrite SoftMax_updates_base.
      unfold eval, SoftMax.get_reward, within. simpl.
      rewrite MAB_get_reward_run. simpl.
      unfold entry_R. now rewrite MAB_unseen.
  - repeat split.
Qed.

(** The theorem at work: "A" was updated, "B" was not. *)
Lemma unseen_arm_defaults_witness :
  ~ In "B"%string (map fst [("A"%string, 1)]) /\
  eval (MAB.get_reward "B"%string)
    (MAB_updates [("A"%string, 1)] MAB.init) = Return 0 /\
  eval (UCB1.get_reward "B"%string)
    (UCB1_updates [("A"%string, 1)] (UCB1.init 1)) = Return 0 /\
  eval (TS.get_reward "B"%string)
    (TS_updates [("A"%string, 1)] (TS.init 0%nat)) = Return 0 /\
  eval (SoftMax.get_reward "B"%string)
    (SoftMax_updates [("A"%string, 1)] (SoftMax.init 1 0%nat)) = Return 0.
Proof.
  assert (N : ~ In "B"%string (map fst [("A"%string, 1)])).
  { simpl. intros [D|[]]. discriminate. }
  split; [exact N|].
  apply (proj1 (@unseen_arm_defaults string _ nat halves 0%nat 1 1 _ _ N)).
Defined.

(** * [CMAB]: contexts do not interfere *)

Section Contexts.
Context {A : Type} `{EqDec A} {C : Type} `{EqDec C}.
Implicit Types (s : CMAB.t A C) (arm : A) (x y : C).

(** A call under context [x] leaves every other context as it was:
    absent if it was absent, with the same object if it was present. *)
Lemma CMAB_update_reward_frame s arm (reward : R) x y :
  x <> y ->
  dict_get (CMAB.mab (exec (CMAB.update_reward arm reward x) s)) y =
  dict_get (CMAB.mab s) y.
Proof.
  intros N. destruct s as [m].
  unfold exec, CMAB.update_reward, bind, contains, setitem, call_item, ret.
  simpl. destruct (dict_mem m x) eqn:M; simpl.
  - destruct (dict_mem_get _ _ M) as [obj ->].
    destruct (UCB1.update_reward arm reward obj) as [o obj']. simpl.
    apply dict_get_set_other. congruence.
  - rewrite dict_get_set_same.
    destruct (UCB1.update_reward arm reward UCB1.default) as [o obj']. simpl.
    rewrite !dict_get_set_other by congruence. reflexivity.
Qed.

Lemma CMAB_updates_unseen (calls : list (A * R * C)) y : forall s,
  ~ In y (map snd calls) ->
  dict_get (CMAB.mab (CMAB_updates calls s)) y = dict_get (CMAB.mab s) y.
Proof.
  induction calls as [|[[a r] x] calls IH]; intros s N; [reflexivity|].
  simpl in N. unfold CMAB_updates in *. simpl. rewrite IH by tauto.
  apply CMAB_update_reward_frame. tauto.
Qed.

(** The reads under a context that is not in the dictionary. *)
Lemma CMAB_unknown_context s arm y :
  dict_get (CMAB.mab s) y = None ->
  CMAB.get_reward arm y s = (Return 0, s) /\
  CMAB.get_best_arm y s = (Return (None, None), s).
Proof.
  intros N.
  unfold CMAB.get_reward, CMAB.get_best_arm, bind, contains, ret, dict_mem.
  simpl. now rewrite N.
Qed.
End Contexts.

(** C7.  Contextual isolation: if no update was ever made under context
    [y], then after a further [update_reward(a, r, x)] under a different
    context [x], [get_reward(a', y)] returns 0 for every arm [a'] and
    [get_best_arm(y)] returns (None, None); these reads leave the object
    as it was, and [y] is still not a key of the dictionary of
    contexts. *)
Theorem CMAB_contextual_isolation :
  forall (A : Type) (EA : EqDec A) (C : Type) (EC : EqDec C)
         (calls : list (A * R * C)) (a a' : A) (r : R) (x y : C),
    x <> y ->
    ~ In y (map snd calls) ->
    let s := exec (CMAB.update_reward a r x) (CMAB_updates calls CMAB.init) in
    eval (CMAB.get_reward a' y) s = Return 0 /\
    eval (CMAB.get_best_arm y) s = Return (None, None) /\
    exec (CMAB.get_reward a' y) s = s /\
    exec (CMAB.get_best_arm y) s = s /\
    dict_mem (CMAB.mab s) y = false.
Proof.
  intros A EA C EC calls a a' r x y N U s.
  assert (G : dict_get (CMAB.mab s) y = None).
  { unfold s. rewrite CMAB_update_reward_frame by assumption.
    now rewrite CMAB_updates_unseen. }
  destruct (@CMAB_unknown_context _ _ _ _ s a' y G) as [Er Eb].
  unfold eval, exec, dict_mem. rewrite Er, Eb, G. simpl. auto.
Qed.

(** The theorem at work: updates under "x", reads under "y". *)
Lemma CMAB_contextual_isolation_witness :
  "x"%string <> "y"%string /\
  ~ In "y"%string (map snd [("a"%string, 1, "x"%string)]) /\
  eval (CMAB.get_reward "a"%string "y"%string)
    (exec (CMAB.update_reward "a"%string 1 "x"%string)
       (CMAB_updates [("a"%string, 1, "x"%string)] CMAB.init)) = Return 0 /\
  eval (CMAB.get_best_arm "y"%string)
    (exec (CMAB.update_reward "a"%string 1 "x"%string)
       (CMAB_updates [("a"%string, 1, "x"%string)] CMAB.init)) =
  Return (None, None).
Proof.
  assert (N : "x"%string <> "y"%string) by discriminate.
  assert (U : ~ In "y"%string (map snd [("a"%string, 1, "x"%string)])).
  { simpl. intros [D|[]]. discriminate. }
  split; [exact N|]. split; [exact U|].
  pose proof (@CMAB_contextual_isolation string _ string _
                [("a"%string, 1, "x"%string)] "a"%string "a"%string 1
                "x"%string "y"%string N U) as T.
  cbv zeta in T. split; apply T.
Defined.

(** * [SoftMax.get_prob_list] *)

Section ProbList.
Context {A : Type} `{EqDec A} {G : Type}.
Implicit Types (s : SoftMax.t A G) (arm : A) (d : dict A R).

Lemma dict_set_absent d arm v :
  ~ In arm (dict_keys d) -> dict_set d arm v = d ++ [(arm, v)].
Proof.
  induction d as [|[k w] d IH]; simpl; intros N; [reflexivity|].
  destruct (eq_dec arm k) as [->|Ne]; [tauto|].
  rewrite IH by tauto. reflexivity.
Qed.



Lemma dict_keys_app (d d' : dict A R) :
  dict_keys (d ++ d') = dict_keys d ++ dict_keys d'.
Proof. apply map_app. Qed.


(** The range of binary64. *)
Lemma float_tiny_lt_1 : float_tiny < 1.
Proof.
  unfold float_tiny.
  assert (P : 1 < 2 ^ 1075) by (apply Rlt_pow_R1; [lra | lia]).
  generalize dependent (2 ^ 1075). intros x P.
  assert (Q : 0 < / x) by (apply Rinv_0_lt_compat; lra).
  assert (I : x * / x = 1) by (apply Rinv_r; lra).
  nra.
Qed.

Lemma float_max_ge_4 : 4 <= float_max.
Proof.
  unfold float_max.
  assert (P : 4 <= 2 ^ 1023).
  { change (2 ^ 1023) with (2 * (2 * 2 ^ 1021)).
    assert (1 <= 2 ^ 1021) by (apply pow_R1_Rle; lra). lra. }
  assert (Q : / 2 ^ 52 <= 1).
  { assert (O : 1 <= 2 ^ 52) by (apply pow_R1_Rle; lra).
    generalize dependent (2 ^ 52). intros x O.
    assert (Q : 0 < / x) by (apply Rinv_0_lt_compat; lra).
    assert (I : x * / x = 1) by (apply Rinv_r; lra).
    nra. }
  generalize dependent (2 ^ 1023). generalize dependent (/ 2 ^ 52).
  intros y Q x P. nra.
Qed.


Lemma weight_nonneg (tau est : R) : 0 <= weight tau est.
Proof.
  unfold weight. destruct (Rle_dec (exp (est / tau)) float_tiny); [lra|].
  left. apply exp_pos.
Qed.

(** [math.exp] where the result is within the range. *)
Lemma math_exp_run (S : Type) (tau est : R) (s : S) :
  exp (est / tau) <= float_max ->
  math_exp (est / tau) s = (Return (weight tau est), s).
Proof.
  intros B. unfold math_exp, weight, ret, raise.
  destruct (Rlt_dec float_max (exp (est / tau))); [lra|].
  now destruct (Rle_dec (exp (est / tau)) float_tiny).
Qed.


(** First loop: every arm gets its weight, in the order of the
    traversal, and the weights are summed. *)
Lemma prob_list_weigh_loop s (items : dict A R) : forall acc w,
  SoftMax.tau s <> 0 ->
  (forall est, In est (dict_values items) ->
               exp (est / SoftMax.tau s) <= float_max) ->
  NoDup (dict_keys acc ++ dict_keys items) ->
  for_fold items (acc, w) SoftMax.prob_list_weigh s =
  (Return (acc ++ map (weigh (SoftMax.tau s)) items,
           fold_left Rplus
             (map (weight (SoftMax.tau s)) (dict_values items)) w),
   s).
Proof.
  induction items as [|[arm est] items IH]; intros acc w T B ND.
  - simpl. now rewrite app_nil_r.
  - simpl in ND. pose proof (NoDup_remove_2 _ _ _ ND) as Na.
    assert (Nacc : ~ In arm (dict_keys acc)).
    { intros I. apply Na. apply in_or_app. now left. }
    assert (Ba : exp (est / SoftMax.tau s) <= float_max)
      by (apply B; now left).
    simpl. unfold bind at 1. unfold SoftMax.prob_list_weigh at 1.
    unfold bind, load, truediv. simpl.
    destruct (Req_dec_T (SoftMax.tau s) 0) as [?|_]; [contradiction|].
    unfold ret at 1. rewrite math_exp_run by assumption.
    unfold lookup, ret, raise.
    rewrite dict_get_set_same. rewrite dict_set_absent by assumption.
    rewrite IH; auto.
    + unfold weigh at 2. simpl. now rewrite <- app_assoc.
    + intros e I. apply B. now right.
    + rewrite dict_keys_app, <- app_assoc. exact ND.
Qed.


Lemma fold_left_Rplus_shift (xs : list R) : forall a,
  fold_left Rplus xs a = a + sum_R xs.
Proof.
  unfold sum_R. induction xs as [|x xs IH]; intros a; simpl; [lra|].
  rewrite (IH (a + x)), (IH (0 + x)). lra.
Qed.


Lemma sum_R_nonneg (xs : list R) :
  (forall x, In x xs -> 0 <= x) -> 0 <= sum_R xs.
Proof.
  induction xs as [|x xs IH]; intros P; unfold sum_R; simpl; [lra|].
  rewrite fold_left_Rplus_shift.
  assert (0 <= x) by (apply P; now left).
  assert (0 <= sum_R xs) by (apply IH; intros y I; apply P; now right).
  lra.
Qed.

Lemma sum_R_member_le (xs : list R) (x : R) :
  (forall y, In y xs -> 0 <= y) -> In x xs -> x <= sum_R xs.
Proof.
  induction xs as [|y xs IH]; intros P I; [destruct I|].
  unfold sum_R. simpl. rewrite fold_left_Rplus_shift.
  assert (Py : 0 <= y) by (apply P; now left).
  assert (Ps : 0 <= sum_R xs)
    by (apply sum_R_nonneg; intros w Iw; apply P; now right).
  destruct I as [->|I]; [lra|].
  assert (x <= sum_R xs).
  { apply IH; auto. intros w Iw. apply P. now right. }
  lra.
Qed.

Lemma weights_nonneg (tau : R) (ests : list R) :
  forall w, In w (map (weight tau) ests) -> 0 <= w.
Proof.
  intros w I. apply in_map_iff in I. destruct I as (est & <- & _).
  apply weight_nonneg.
Qed.

(** One weight that does not vanish makes the sum positive. *)
Lemma weights_total_pos (tau : R) (ests : list R) :
  (exists est, In est ests /\ float_tiny < exp (est / tau)) ->
  0 < sum_R (map (weight tau) ests).
Proof.
  intros (est & I & B).
  assert (L : weight tau est <= sum_R (map (weight tau) ests)).
  { apply sum_R_member_le; [apply weights_nonneg|]. now apply in_map. }
  assert (P : 0 < weight tau est).
  { unfold weight. destruct (Rle_dec (exp (est / tau)) float_tiny); [lra|].
    apply exp_pos. }
  lra.
Qed.


(** [exp] at a natural number. *)
Lemma exp_INR (n : nat) : exp (INR n) = exp 1 ^ n.
Proof.
  induction n as [|n IH]; [simpl; apply exp_0|].
  rewrite S_INR, exp_plus, IH. simpl. apply Rmult_comm.
Qed.

Lemma pow_2000_le_exp : 2 ^ 2000 <= exp 2000.
Proof.
  assert (E : exp 2000 = exp 1 ^ 2000).
  { rewrite <- exp_INR. f_equal. rewrite INR_IZR_INZ. reflexivity. }
  rewrite E. apply pow_incr. split; [lra|].
  pose proof (exp_ineq1 1). lra.
Qed.


(** [math.exp(-2000.0)] is 0.0. *)
Lemma exp_minus_2000_vanishes : exp (- 2000) <= float_tiny.
Proof.
  replace (- 2000) with (Ropp 2000) by lra.
  rewrite exp_Ropp. unfold float_tiny.
  apply Rinv_le_contravar; [apply pow_lt; lra|].
  apply Rle_trans with (2 ^ 2000); [|apply pow_2000_le_exp].
  apply Rle_pow; [lra | lia].
Qed.

Lemma sum_R_zeros (xs : list R) :
  (forall x, In x xs -> x = 0) -> sum_R xs = 0.
Proof.
  induction xs as [|x xs IH]; intros Z; unfold sum_R; simpl; [reflexivity|].
  rewrite fold_left_Rplus_shift, IH by (intros y I; apply Z; now right).
  rewrite (Z x) by now left. lra.
Qed.
End ProbList.


(** The estimates that two updates leave, as the examples below meet
    them. *)
Lemma SoftMax_two_arms_from (G : Type) (g : G) :
  MAB.average_reward
    (SoftMax.base
       (SoftMax_updates [("A", 1); ("B", 0)]%string (SoftMax.init 1 g))) =
  [("A", (0 + 1) / 1); ("B", (0 + 0) / 1)]%string.
Proof.
  unfold SoftMax_updates, SoftMax.update_reward, MAB.update_reward.
  py_eval. reflexivity.
Qed.

Lemma exp_1_in_range : float_tiny < exp 1 <= float_max.
Proof.
  pose proof (exp_ineq1 1). pose proof exp_le_3.
  pose proof float_tiny_lt_1. pose proof float_max_ge_4. lra.
Qed.

Lemma exp_0_in_range : float_tiny < exp 0 <= float_max.
Proof.
  rewrite exp_0.
  pose proof float_tiny_lt_1. pose proof float_max_ge_4. lra.
Qed.

Lemma two_weights_in_range :
  sum_R (map (weight 1) (dict_values
           [("A", (0 + 1) / 1); ("B", (0 + 0) / 1)]%string)) <= float_max.
Proof.
  unfold sum_R, weight. simpl.
  replace ((0 + 1) / 1 / 1) with 1 by lra.
  replace ((0 + 0) / 1 / 1) with 0 by lra.
  destruct (Rle_dec (exp 1) float_tiny) as [L|_];
    [pose proof exp_1_in_range; lra|].
  destruct (Rle_dec (exp 0) float_tiny) as [L|_];
    [pose proof exp_0_in_range; lra|].
  rewrite exp_0. pose proof exp_le_3. pose proof float_max_ge_4. lra.
Qed.


(** The object that one update of "A" leaves. *)
Lemma SoftMax_one_arm (G : Type) (g : G) (reward : R) :
  SoftMax_updates [("A"%string, reward)] (SoftMax.init 1 g) =
  SoftMax.Build
    (MAB.Build [("A"%string, 0 + reward)] [("A"%string, (0 + 1)%Z)]
       [("A"%string, (0 + reward) / 1)]) 1 g.
Proof.
  unfold SoftMax_updates, SoftMax.update_reward, MAB.update_reward.
  py_eval. reflexivity.
Qed.

Lemma SoftMax_one_arm_from (G : Type) (g : G) (reward : R) :
  MAB.average_reward
    (SoftMax.base
       (SoftMax_updates [("A"%string, reward)] (SoftMax.init 1 g))) =
  [("A"%string, (0 + reward) / 1)].
Proof. now rewrite SoftMax_one_arm. Qed.



(** * Further properties of [MAB] *)

Section FirstSeenFacts.
Context {K : Type} `{EqDec K}.

Lemma first_seen_In (ks : list K) k : In k (first_seen ks) <-> In k ks.
Proof.
  induction ks as [|a ks IH]; simpl; [tauto|].
  destruct (eq_dec a k) as [->|N]; [tauto|].
  split.
  - intros [E|I]; [tauto|]. apply in_remove in I. tauto.
  - intros [E|I]; [tauto|]. right. apply in_in_remove; [congruence|tauto].
Qed.

Lemma first_seen_snoc (ks : list K) k :
  first_seen (ks ++ [k]) =
  if in_dec eq_dec k ks then first_seen ks else first_seen ks ++ [k].
Proof.
  induction ks as [|a ks IH]; simpl.
  - reflexivity.
  - rewrite IH. destruct (eq_dec a k) as [->|N].
    + destruct (in_dec eq_dec k ks) as [I|NI]; [reflexivity|].
      rewrite remove_app. simpl. destruct (eq_dec k k); [|congruence].
      now rewrite app_nil_r.
    + destruct (in_dec eq_dec k ks) as [I|NI]; [reflexivity|].
      rewrite remove_app. simpl. destruct (eq_dec a k); [congruence|].
      reflexivity.
Qed.

Lemma first_seen_NoDup (ks : list K) : NoDup (first_seen ks).
Proof.
  induction ks as [|a ks IH]; simpl; constructor.
  - apply remove_In.
  - clear -IH. induction IH as [|x l Nx ND IH]; simpl; [constructor|].
    destruct (eq_dec a x); auto. constructor; auto.
    intros I. apply in_remove in I. tauto.
Qed.

(** Writing the keys of a list one after the other, whatever the values,
    leaves them in the order of their first occurrence. *)
Lemma dict_keys_set_first_seen (V : Type) (d : dict K V) ks k v :
  dict_keys d = first_seen ks ->
  dict_keys (dict_set d k v) = first_seen (ks ++ [k]).
Proof.
  intros E. rewrite dict_keys_set, first_seen_snoc.
  destruct (dict_mem d k) eqn:M.
  - apply dict_mem_keys in M. rewrite E, first_seen_In in M.
    destruct (in_dec eq_dec k ks); [assumption | contradiction].
  - destruct (in_dec eq_dec k ks) as [I|NI]; [|now rewrite E].
    apply first_seen_In in I. rewrite <- E in I.
    apply dict_mem_keys in I. congruence.
Qed.
End FirstSeenFacts.

Section MABMore.
Context {A : Type} `{EqDec A}.
Implicit Types (s : MAB.t A) (arm : A) (calls : list (A * R)).

Lemma count_of_not_updated arm calls :
  updated arm calls = false -> count_of arm calls = 0%Z.
Proof.
  unfold updated, count_of. now destruct (rewards_of arm calls).
Qed.

Lemma MAB_keys calls :
  let s := MAB_updates calls MAB.init in
  dict_keys (MAB.total_rewards s) = first_seen (map fst calls) /\
  dict_keys (MAB.total_count s) = first_seen (map fst calls) /\
  dict_keys (MAB.average_reward s) = first_seen (map fst calls).
Proof.
  induction calls as [|[a r] calls IH] using rev_ind; [now cbv|].
  cbv zeta in *. destruct IH as (Er & Ec & Ea).
  rewrite MAB_updates_snoc, map_app. simpl.
  repeat split; now apply dict_keys_set_first_seen.
Qed.

(** The sum of rewards that all lie between two bounds. *)
Lemma fold_left_Rplus_bounds (lo hi : R) (rewards : list R) :
  Forall (fun r => lo <= r <= hi) rewards ->
  INR (List.length rewards) * lo <= fold_left Rplus rewards 0 <=
  INR (List.length rewards) * hi.
Proof.
  induction rewards as [|r rewards IH] using rev_ind; intros F.
  - simpl. lra.
  - apply Forall_app in F. destruct F as [F Fr].
    inversion Fr as [|? ? Hr _]; subst. specialize (IH F).
    rewrite fold_left_app, length_app, plus_INR. simpl. lra.
Qed.

Lemma mean_bounds (lo hi total n : R) :
  0 < n -> n * lo <= total <= n * hi -> lo <= total / n <= hi.
Proof.
  intros P [L U]. split.
  - apply Rmult_le_reg_l with n; [assumption|]. field_simplify; lra.
  - apply Rmult_le_reg_l with n; [assumption|]. field_simplify; lra.
Qed.

Lemma MAB_update_reward_after calls arm (reward : R) :
  MAB.update_reward arm reward (MAB_updates calls MAB.init) =
  (Return tt, MAB_updates (calls ++ [(arm, reward)]) MAB.init).
Proof.
  rewrite MAB_updates_snoc.
  apply MAB_update_reward_run. apply (MAB_holds_updates calls).
Qed.

Lemma count_of_updated_pos arm calls :
  updated arm calls = true -> 0 < IZR (count_of arm calls).
Proof.
  unfold updated, count_of. intros U. apply IZR_lt.
  destruct (rewards_of arm calls); [discriminate | simpl; lia].
Qed.
End MABMore.

(** X1.  [get_arm_count] of [MAB], [UCB1], [TS] and [SoftMax] returns,
    for every arm, the number of calls of [update_reward] made for it: 0
    for an arm never updated, and for [UCB1] the calls that raised are
    counted too. *)
Theorem get_arm_count_is_number_of_updates :
  forall (A : Type) (E : EqDec A) (G : Type) (g : G) (b tau : R)
         (calls : list (A * R)) (arm : A),
    eval (MAB.get_arm_count arm) (MAB_updates calls MAB.init) =
      Return (count_of arm calls) /\
    eval (UCB1.get_arm_count arm) (UCB1_updates calls (UCB1.init b)) =
      Return (count_of arm calls) /\
    eval (TS.get_arm_count arm) (TS_updates calls (TS.init g)) =
      Return (count_of arm calls) /\
    eval (SoftMax.get_arm_count arm)
      (SoftMax_updates calls (SoftMax.init tau g)) =
      Return (count_of arm calls).
Proof.
  intros A E G g b tau calls arm.
  assert (M : eval (MAB.get_arm_count arm) (MAB_updates calls MAB.init) =
              Return (count_of arm calls)).
  { unfold eval. rewrite MAB_get_arm_count_run. simpl.
    destruct (MAB_holds_updates calls) as [_ Hs].
    destruct (Hs arm) as (_ & -> & _). reflexivity. }
  split; [exact M|]. split; [|split].
  - unfold eval, UCB1.get_arm_count, within.
    rewrite MAB_get_arm_count_run. simpl.
    destruct (UCB1_holds_updates b calls) as (_ & _ & _ & Hc).
    unfold UCB1_count in Hc. now rewrite Hc.
  - destruct (TS_holds_updates g calls) as (_ & _ & Hs). specialize (Hs arm).
    unfold eval, TS.get_arm_count, bind, contains, getitem, ret, dict_mem.
    simpl. destruct (updated arm calls) eqn:U.
    + destruct Hs as (Ec & _). rewrite Ec. simpl. now rewrite Ec.
    + rewrite Hs. simpl. now rewrite count_of_not_updated.
  - rewrite SoftMax_updates_base.
    unfold eval, SoftMax.get_arm_count, within in *. simpl.
    destruct (MAB.get_arm_count arm (MAB_updates calls MAB.init)).
    exact M.
Qed.

(** X2.  The three dictionaries of a [MAB] are traversed in the order in
    which the arms were first updated, each arm once; this is the order
    that decides which of several arms of greatest estimate
    [get_best_arm] returns. *)
Theorem MAB_traversal_is_first_update_order :
  forall (A : Type) (E : EqDec A) (calls : list (A * R)),
    let s := MAB_updates calls MAB.init in
    dict_keys (MAB.average_reward s) = first_seen (map fst calls) /\
    dict_keys (MAB.total_rewards s) = first_seen (map fst calls) /\
    dict_keys (MAB.total_count s) = first_seen (map fst calls) /\
    NoDup (dict_keys (MAB.average_reward s)) /\
    forall arm, In arm (dict_keys (MAB.average_reward s)) <->
                In arm (map fst calls).
Proof.
  intros A E calls s. destruct (MAB_keys calls) as (Er & Ec & Ea).
  fold s in Er, Ec, Ea. rewrite Ea.
  repeat split; auto using first_seen_NoDup; apply first_seen_In.
Qed.

(** X3.  A call of [MAB.update_reward], after any history and with any
    reward, raises neither [KeyError] nor [ZeroDivisionError]: every key
    it reads was written before, and the count it divides by, the number
    of updates of the arm with this one, is at least 1. *)
Theorem MAB_update_reward_keys_and_divisor :
  forall (A : Type) (E : EqDec A) (calls : list (A * R)) (arm : A)
         (reward : R),
    let s := MAB_updates calls MAB.init in
    let s' := exec (MAB.update_reward arm reward) s in
    eval (MAB.update_reward arm reward) s <> Raise KeyError /\
    eval (MAB.update_reward arm reward) s <> Raise ZeroDivisionError /\
    eval (MAB.get_arm_count arm) s' = Return (count_of arm calls + 1)%Z /\
    (1 <= count_of arm calls + 1)%Z.
Proof.
  intros A E calls arm reward s s'. unfold s', s, eval at 1 2, exec.
  rewrite MAB_update_reward_after. simpl.
  split; [discriminate|]. split; [discriminate|]. split.
  - assert (I : In arm (map fst (calls ++ [(arm, reward)]))).
    { rewrite map_app. apply in_or_app. right. now left. }
    rewrite (proj2 (MAB_reads_after_updates _ _ I)).
    now rewrite (proj1 (proj2 (history_snoc_same arm calls reward))).
  - unfold count_of. lia.
Qed.

(** X4.  Arms of a [MAB] do not interfere: a call of [update_reward] for
    one arm leaves the estimate and the count of every other arm as they
    were. *)
Theorem MAB_update_reward_frame :
  forall (A : Type) (E : EqDec A) (calls : list (A * R)) (arm other : A)
         (reward : R),
    arm <> other ->
    let s := MAB_updates calls MAB.init in
    let s' := exec (MAB.update_reward arm reward) s in
    eval (MAB.get_reward other) s' = eval (MAB.get_reward other) s /\
    eval (MAB.get_arm_count other) s' = eval (MAB.get_arm_count other) s.
Proof.
  intros A E calls arm other reward N s s'. subst s'. unfold exec, eval.
  rewrite MAB_update_reward_run by apply (MAB_holds_updates calls).
  rewrite !MAB_get_reward_run, !MAB_get_arm_count_run. simpl.
  unfold entry_R, entry_Z.
  rewrite !dict_get_set_other by congruence. auto.
Qed.

(** The theorem at work: an update of "A" seen from "B". *)
Lemma MAB_update_reward_frame_witness :
  "A"%string <> "B"%string /\
  eval (MAB.get_reward "B"%string)
    (exec (MAB.update_reward "A"%string 1)
       (MAB_updates [("B"%string, 1)] MAB.init)) =
  eval (MAB.get_reward "B"%string) (MAB_updates [("B"%string, 1)] MAB.init).
Proof.
  assert (N : "A"%string <> "B"%string) by discriminate.
  split; [exact N|].
  apply (@MAB_update_reward_frame string _ [("B"%string, 1)] _ _ 1 N).
Defined.

(** X5.  The estimate of a [MAB] stays within the rewards: if every
    reward passed lies between [lo] and [hi], so does [get_reward] of
    every arm that was updated. *)
Theorem MAB_estimate_within_rewards :
  forall (A : Type) (E : EqDec A) (calls : list (A * R)) (arm : A)
         (lo hi : R),
    Forall (fun c => lo <= snd c <= hi) calls ->
    In arm (map fst calls) ->
    exists est,
      eval (MAB.get_reward arm) (MAB_updates calls MAB.init) = Return est /\
      lo <= est <= hi.
Proof.
  intros A E calls arm lo hi F I.
  destruct (MAB_reads_after_updates calls arm I) as [Er _].
  eexists. split; [exact Er|].
  apply updated_In in I.
  apply mean_bounds; [now apply count_of_updated_pos|].
  rewrite count_of_INR. unfold total_of.
  apply fold_left_Rplus_bounds.
  now apply (rewards_of_Forall (fun r => lo <= r <= hi)).
Qed.

(** The theorem at work: rewards 0 and 1 for "A", bounds 0 and 1. *)
Lemma MAB_estimate_within_rewards_witness :
  Forall (fun c : string * R => 0 <= snd c <= 1)
    [("A"%string, 0); ("A"%string, 1)] /\
  In "A"%string (map fst [("A"%string, 0); ("A"%string, 1)]) /\
  exists est,
    eval (MAB.get_reward "A"%string)
      (MAB_updates [("A"%string, 0); ("A"%string, 1)] MAB.init) =
    Return est /\ 0 <= est <= 1.
Proof.
  assert (F : Forall (fun c : string * R => 0 <= snd c <= 1)
                [("A"%string, 0); ("A"%string, 1)]).
  { repeat (apply Forall_cons; [simpl; lra|]). apply Forall_nil. }
  assert (I : In "A"%string (map fst [("A"%string, 0); ("A"%string, 1)])).
  { simpl. auto. }
  split; [exact F|]. split; [exact I|].
  apply (@MAB_estimate_within_rewards string _ _ _ 0 1 F I).
Defined.

(** X6.  The running mean of a [MAB] is the incremental mean: for an arm
    updated [n >= 1] times with estimate [old], a further update with
    [reward] makes the estimate [old + (reward - old) / (n + 1)]. *)
Theorem MAB_incremental_mean :
  forall (A : Type) (E : EqDec A) (calls : list (A * R)) (arm : A)
         (reward : R),
    In arm (map fst calls) ->
    let s := MAB_updates calls MAB.init in
    let s' := exec (MAB.update_reward arm reward) s in
    exists old n,
      eval (MAB.get_reward arm) s = Return old /\
      eval (MAB.get_arm_count arm) s = Return n /\
      (1 <= n)%Z /\
      eval (MAB.get_arm_count arm) s' = Return (n + 1)%Z /\
      eval (MAB.get_reward arm) s' =
        Return (old + (reward - old) / IZR (n + 1)).
Proof.
  intros A E calls arm reward I s s'.
  destruct (MAB_reads_after_updates calls arm I) as [Er Ec].
  fold s in Er, Ec.
  assert (I' : In arm (map fst (calls ++ [(arm, reward)]))).
  { rewrite map_app. apply in_or_app. now left. }
  destruct (MAB_reads_after_updates _ arm I') as [Er' Ec'].
  assert (Es' : s' = MAB_updates (calls ++ [(arm, reward)]) MAB.init).
  { unfold s', exec, s. now rewrite MAB_update_reward_after. }
  rewrite <- Es' in Er', Ec'.
  destruct (history_snoc_same arm calls reward) as (Et & En & _).
  rewrite Et, En in Er'. rewrite En in Ec'.
  apply updated_In in I. pose proof (count_of_updated_pos _ _ I) as P.
  exists (total_of arm calls / IZR (count_of arm calls)), (count_of arm calls).
  split; [exact Er|]. split; [exact Ec|]. split.
  { apply lt_IZR in P. lia. }
  split; [exact Ec'|]. rewrite Er'. f_equal.
  rewrite plus_IZR. field. lra.
Qed.

(** The theorem at work: a second update of "A". *)
Lemma MAB_incremental_mean_witness :
  In "A"%string (map fst [("A"%string, 1)]) /\
  exists old n,
    eval (MAB.get_reward "A"%string)
      (MAB_updates [("A"%string, 1)] MAB.init) = Return old /\
    eval (MAB.get_reward "A"%string)
      (exec (MAB.update_reward "A"%string 0)
         (MAB_updates [("A"%string, 1)] MAB.init)) =
    Return (old + (0 - old) / IZR (n + 1)).
Proof.
  assert (I : In "A"%string (map fst [("A"%string, 1)])).
  { simpl. auto. }
  split; [exact I|].
  destruct (@MAB_incremental_mean string _ [("A"%string, 1)] "A"%string 0 I)
    as (old & n & E1 & _ & _ & _ & E2).
  exists old, n. split; [exact E1 | exact E2].
Defined.

(** * Further properties of [UCB1] *)

Section UCB1More.
Context {A : Type} `{EqDec A}.
Implicit Types (s : UCB1.t A) (arm : A) (calls : list (A * R)).

Lemma UCB1_updates_snoc (b : R) calls arm (reward : R) :
  UCB1_updates (calls ++ [(arm, reward)]) (UCB1.init b) =
  exec (UCB1.update_reward arm reward) (UCB1_updates calls (UCB1.init b)).
Proof. unfold UCB1_updates. now rewrite run_calls_app. Qed.

(** With a constant that is not negative a call returns. *)
Lemma UCB1_update_reward_returns (b : R) calls arm (reward : R) :
  0 <= b ->
  let s := UCB1_updates calls (UCB1.init b) in
  UCB1.update_reward arm reward s = (Return tt, UCB1_updated s arm reward).
Proof.
  intros B s.
  destruct (UCB1_holds_updates b calls) as (C & Eb & _ & Hc). fold s in C, Eb, Hc.
  rewrite UCB1_update_reward_run by assumption. rewrite Eb, Hc.
  assert (N : (1 <= count_of arm calls + 1)%Z) by (unfold count_of; lia).
  pose proof (UCB1_radicand_nonneg B N).
  destruct (Rlt_dec _ 0); [exfalso; lra | reflexivity].
Qed.

(** The first update of an arm returns whatever the constant. *)
Lemma UCB1_first_update_returns (b : R) calls arm (reward : R) :
  ~ In arm (map fst calls) ->
  let s := UCB1_updates calls (UCB1.init b) in
  UCB1.update_reward arm reward s = (Return tt, UCB1_updated s arm reward).
Proof.
  intros N s.
  destruct (UCB1_holds_updates b calls) as (C & Eb & _ & Hc). fold s in C, Eb, Hc.
  rewrite UCB1_update_reward_run by assumption. rewrite Eb, Hc.
  rewrite (count_of_not_updated _ _ (updated_not_In _ _ N)).
  assert (Z0 : UCB1_radicand b (0 + 1) = 0).
  { unfold UCB1_radicand. simpl. rewrite ln_1. lra. }
  rewrite Z0. destruct (Rlt_dec 0 0); [exfalso; lra | reflexivity].
Qed.

Lemma UCB1_radicand_negative (b : R) (n : Z) :
  b < 0 -> (2 <= n)%Z -> UCB1_radicand b n < 0.
Proof.
  intros B N. apply IZR_le in N. unfold UCB1_radicand.
  assert (L : 0 < ln (IZR n)).
  { rewrite <- ln_1. apply ln_increasing; lra. }
  assert (I : 0 < / IZR n) by (apply Rinv_0_lt_compat; lra).
  unfold Rdiv. replace (2 * b * ln (IZR n) * / IZR n)
    with (- ((2 * - b) * (ln (IZR n) * / IZR n))) by lra.
  assert (0 < (2 * - b) * (ln (IZR n) * / IZR n)).
  { apply Rmult_lt_0_compat; [lra|]. now apply Rmult_lt_0_compat. }
  lra.
Qed.

Lemma UCB1_bonus_nonneg (b : R) (n : Z) : 0 <= UCB1_bonus b n.
Proof.
  unfold UCB1_bonus.
  destruct (Rle_dec 0 (UCB1_radicand b n)) as [P|N].
  - now apply sqrt_pos.
  - rewrite sqrt_neg_0; lra.
Qed.

Lemma UCB1_bonus_total_nonneg (b : R) (n : nat) : 0 <= UCB1_bonus_total b n.
Proof.
  induction n as [|n IH]; simpl; [lra|].
  pose proof (UCB1_bonus_nonneg b (Z.pos (Pos.of_succ_nat n))). lra.
Qed.

(** What the rewards and the estimates of a [UCB1] hold after a history,
    for a constant that is not negative. *)
Lemma UCB1_closed_form (b : R) calls :
  0 <= b ->
  let s := UCB1_updates calls (UCB1.init b) in
  forall arm,
    entry_R (UCB1_rewards s) arm =
      total_of arm calls +
      UCB1_bonus_total b (List.length (rewards_of arm calls)) /\
    dict_get (UCB1_average s) arm =
      if updated arm calls
      then Some (entry_R (UCB1_rewards s) arm / IZR (count_of arm calls))
      else None.
Proof.
  intros B. induction calls as [|[a r] calls IH] using rev_ind.
  - intros s arm. cbv. split; [lra | reflexivity].
  - cbv zeta in *. intros arm.
    rewrite UCB1_updates_snoc. unfold exec.
    rewrite UCB1_update_reward_returns by assumption. cbv zeta. simpl.
    destruct (UCB1_holds_updates b calls) as (_ & Eb & _ & Hc).
    unfold UCB1_updated, UCB1_rewards, UCB1_average, UCB1_count in *.
    simpl. unfold entry_R in *. rewrite !dict_get_set.
    destruct (eq_dec arm a) as [->|N].
    + destruct (history_snoc_same a calls r) as (-> & -> & ->).
      rewrite rewards_of_snoc, eq_dec_refl, length_app. simpl.
      rewrite Nat.add_1_r. simpl UCB1_bonus_total.
      rewrite Eb, Hc. split; [|reflexivity].
      destruct (IH a) as [-> _].
      rewrite Zpos_P_of_succ_nat. unfold count_of, Z.succ. lra.
    + destruct (history_snoc_other calls r N) as (-> & -> & ->).
      rewrite rewards_of_snoc, eq_dec_neq, app_nil_r by congruence.
      apply IH.
Qed.
End UCB1More.

Section UCB1Unseen.
Context {A : Type} `{EqDec A}.
Implicit Types (arm : A) (calls : list (A * R)).

Lemma UCB1_rewards_unseen (b : R) arm calls :
  ~ In arm (map fst calls) ->
  dict_get (UCB1_rewards (UCB1_updates calls (UCB1.init b))) arm = None.
Proof.
  induction calls as [|[a r] calls IH] using rev_ind; intros N.
  - reflexivity.
  - rewrite map_app, in_app_iff in N. simpl in N.
    rewrite UCB1_updates_snoc. unfold exec.
    destruct (UCB1_holds_updates b calls) as (C & _).
    rewrite UCB1_update_reward_run by assumption.
    destruct (Rlt_dec _ 0); unfold UCB1_rewards in *; simpl;
      (rewrite dict_get_set_other by (intros ->; tauto)); apply IH; tauto.
Qed.
End UCB1Unseen.

(** X7.  The first update of an arm of a [UCB1] returns for every
    exploration constant, negative ones included: the bonus is 0, the
    count of the arm is 1 and its estimate is the reward itself. *)
Theorem UCB1_first_update :
  forall (A : Type) (E : EqDec A) (b : R) (calls : list (A * R)) (arm : A)
         (reward : R),
    ~ In arm (map fst calls) ->
    let s := UCB1_updates calls (UCB1.init b) in
    let s' := exec (UCB1.update_reward arm reward) s in
    eval (UCB1.update_reward arm reward) s = Return tt /\
    eval UCB1.get_last_ucb s' = Return 0 /\
    eval (UCB1.get_arm_count arm) s' = Return 1%Z /\
    eval (UCB1.get_reward arm) s' = Return reward.
Proof.
  intros A E b calls arm reward N. cbv zeta.
  pose proof (UCB1_first_update_returns b calls arm reward N) as Run.
  cbv zeta in Run. unfold eval, exec. rewrite Run.
  destruct (UCB1_holds_updates b calls) as (_ & _ & _ & Hc).
  pose proof (count_of_not_updated _ _ (updated_not_In _ _ N)) as Z0.
  pose proof (UCB1_rewards_unseen b _ _ N) as Un.
  unfold UCB1.get_arm_count, UCB1.get_reward, UCB1.get_last_ucb, within, load.
  rewrite MAB_get_arm_count_run, MAB_get_reward_run. simpl.
  unfold entry_Z, entry_R in *. rewrite !dict_get_set_same, !Hc, Z0, Un.
  change (0 + 1)%Z with 1%Z. rewrite UCB1_bonus_first.
  repeat split. f_equal. field.
Qed.

(** The theorem at work: "B" is new, the constant is negative. *)
Lemma UCB1_first_update_witness :
  ~ In "B"%string (map fst [("A"%string, 1)]) /\
  eval (UCB1.get_reward "B"%string)
    (exec (UCB1.update_reward "B"%string 3)
       (UCB1_updates [("A"%string, 1)] (UCB1.init (-1)))) = Return 3.
Proof.
  assert (N : ~ In "B"%string (map fst [("A"%string, 1)])).
  { simpl. intros [D|[]]. discriminate. }
  split; [exact N|].
  apply (@UCB1_first_update string _ (-1) [("A"%string, 1)] "B"%string 3 N).
Defined.

Section UCB1Raising.
Context {A : Type} `{EqDec A}.
Implicit Types (arm : A) (calls : list (A * R)).

Lemma UCB1_rewards_member (b : R) arm calls :
  In arm (map fst calls) ->
  dict_mem (UCB1_rewards (UCB1_updates calls (UCB1.init b))) arm = true.
Proof.
  intros I. destruct (UCB1_holds_updates b calls) as (C & _ & _ & Hc).
  destruct (C arm) as [-> _]. specialize (Hc arm).
  apply updated_In in I. apply count_of_updated_pos in I. apply lt_IZR in I.
  unfold entry_Z, dict_mem in *.
  destruct (dict_get _ arm); [reflexivity | lia].
Qed.

(** With a negative constant every update of an arm after its first
    raises, and leaves the object interrupted. *)
Lemma UCB1_update_reward_raises (b : R) calls arm (reward : R) :
  b < 0 -> In arm (map fst calls) ->
  let s := UCB1_updates calls (UCB1.init b) in
  UCB1.update_reward arm reward s =
  (Raise ValueError,
   UCB1.Build
     (MAB.Build (UCB1_rewards s)
        (dict_set (UCB1_count s) arm (count_of arm calls + 1)%Z)
        (UCB1_average s))
     b (Z.of_nat (List.length calls) + 1)%Z (UCB1.ucb s)).
Proof.
  intros B I s.
  destruct (UCB1_holds_updates b calls) as (C & Eb & En & Hc).
  fold s in C, Eb, En, Hc.
  rewrite UCB1_update_reward_run by assumption. rewrite Eb, Hc.
  pose proof I as U. apply updated_In in U. apply count_of_updated_pos in U.
  apply lt_IZR in U.
  assert (L : UCB1_radicand b (count_of arm calls + 1) < 0).
  { apply UCB1_radicand_negative; [assumption | lia]. }
  destruct (Rlt_dec _ 0); [|contradiction].
  unfold UCB1_interrupted. rewrite Eb, En, Hc.
  rewrite dict_set_entry_R; [reflexivity|].
  now apply UCB1_rewards_member.
Qed.
End UCB1Raising.

(** X8.  With a negative exploration constant, every update of an arm
    after its first raises [ValueError]; the call has by then incremented
    the count of the arm and the overall count, and it leaves the
    rewards, the estimates and the last bonus as they were, so that the
    estimate of the arm no longer follows its count. *)
Theorem UCB1_negative_constant_interrupts :
  forall (A : Type) (E : EqDec A) (b : R) (calls : list (A * R)) (arm : A)
         (reward : R),
    b < 0 ->
    In arm (map fst calls) ->
    let s := UCB1_updates calls (UCB1.init b) in
    let s' := exec (UCB1.update_reward arm reward) s in
    eval (UCB1.update_reward arm reward) s = Raise ValueError /\
    eval (UCB1.get_arm_count arm) s' = Return (count_of arm calls + 1)%Z /\
    UCB1.overall_total_count s' = (Z.of_nat (List.length calls) + 1)%Z /\
    UCB1_rewards s' = UCB1_rewards s /\
    UCB1_average s' = UCB1_average s /\
    (forall other, eval (UCB1.get_reward other) s' =
                   eval (UCB1.get_reward other) s) /\
    eval UCB1.get_last_ucb s' = eval UCB1.get_last_ucb s.
Proof.
  intros A E b calls arm reward B I. cbv zeta.
  pose proof (@UCB1_update_reward_raises _ _ b calls arm reward B I) as Run.
  cbv zeta in Run. unfold eval, exec. rewrite Run. simpl.
  unfold UCB1.get_arm_count, UCB1.get_reward, UCB1.get_last_ucb, within, load.
  rewrite MAB_get_arm_count_run. simpl.
  unfold entry_Z. rewrite dict_get_set_same.
  repeat split. intros other.
  rewrite !MAB_get_reward_run. reflexivity.
Qed.

(** The theorem at work: constant -1, a second update of "A". *)
Lemma UCB1_negative_constant_interrupts_witness :
  -1 < 0 /\
  In "A"%string (map fst [("A"%string, 0)]) /\
  eval (UCB1.update_reward "A"%string 0)
    (UCB1_updates [("A"%string, 0)] (UCB1.init (-1))) = Raise ValueError.
Proof.
  assert (B : -1 < 0) by lra.
  assert (I : In "A"%string (map fst [("A"%string, 0)])).
  { simpl. auto. }
  split; [exact B|]. split; [exact I|].
  apply (@UCB1_negative_constant_interrupts string _ (-1)
           [("A"%string, 0)] "A"%string 0 B I).
Defined.

(** X9.  With an exploration constant that is not negative, the estimate
    of an arm of a [UCB1] updated [n] times is the sum of its rewards
    plus the sum of the bonuses [sqrt (2 * b * ln k / k)] for [k] from 1
    to [n], divided by [n]. *)
Theorem UCB1_estimate_closed_form :
  forall (A : Type) (E : EqDec A) (b : R) (calls : list (A * R)) (arm : A),
    0 <= b ->
    In arm (map fst calls) ->
    let s := UCB1_updates calls (UCB1.init b) in
    let n := List.length (rewards_of arm calls) in
    entry_R (UCB1_rewards s) arm = total_of arm calls + UCB1_bonus_total b n /\
    eval (UCB1.get_reward arm) s =
      Return ((total_of arm calls + UCB1_bonus_total b n) / INR n).
Proof.
  intros A E b calls arm B I. cbv zeta.
  destruct (@UCB1_closed_form _ _ b calls B arm) as [Er Ea].
  split; [exact Er|].
  apply updated_In in I. rewrite I in Ea.
  unfold eval, UCB1.get_reward, within. rewrite MAB_get_reward_run. simpl.
  unfold entry_R at 1. unfold UCB1_average in Ea. rewrite Ea.
  now rewrite Er, count_of_INR.
Qed.

(** The theorem at work: two updates of "A" with the default constant. *)
Lemma UCB1_estimate_closed_form_witness :
  0 <= 1 /\
  In "A"%string (map fst [("A"%string, 1); ("A"%string, 0)]) /\
  eval (UCB1.get_reward "A"%string)
    (UCB1_updates [("A"%string, 1); ("A"%string, 0)] (UCB1.init 1)) =
  Return ((total_of "A"%string [("A"%string, 1); ("A"%string, 0)] +
           UCB1_bonus_total 1
             (List.length
                (rewards_of "A"%string [("A"%string, 1); ("A"%string, 0)]))) /
          INR (List.length
                 (rewards_of "A"%string [("A"%string, 1); ("A"%string, 0)]))).
Proof.
  assert (B : 0 <= 1) by lra.
  assert (I : In "A"%string (map fst [("A"%string, 1); ("A"%string, 0)])).
  { simpl. auto. }
  split; [exact B|]. split; [exact I|].
  apply (@UCB1_estimate_closed_form string _ 1 _ "A"%string B I).
Defined.

(** X10.  Optimism: with an exploration constant that is not negative,
    the estimate that a [UCB1] reports for an arm is never below the
    sample average that a [MAB] reports after the same updates. *)
Theorem UCB1_estimate_not_below_average :
  forall (A : Type) (E : EqDec A) (b : R) (calls : list (A * R)) (arm : A),
    0 <= b ->
    In arm (map fst calls) ->
    exists optimistic average,
      eval (UCB1.get_reward arm) (UCB1_updates calls (UCB1.init b)) =
        Return optimistic /\
      eval (MAB.get_reward arm) (MAB_updates calls MAB.init) =
        Return average /\
      average <= optimistic.
Proof.
  intros A E b calls arm B I.
  destruct (@UCB1_closed_form _ _ b calls B arm) as [Er Ea].
  destruct (MAB_reads_after_updates calls arm I) as [Em _].
  pose proof I as U. apply updated_In in U. rewrite U in Ea.
  pose proof (count_of_updated_pos _ _ U) as P.
  eexists _, _. split; [|split; [exact Em|]].
  - unfold eval, UCB1.get_reward, within. rewrite MAB_get_reward_run. simpl.
    unfold entry_R at 1. unfold UCB1_average in Ea. rewrite Ea. reflexivity.
  - rewrite Er.
    pose proof (UCB1_bonus_total_nonneg b
                  (List.length (rewards_of arm calls))) as Q.
    unfold Rdiv. apply Rmult_le_compat_r; [|lra].
    left. now apply Rinv_0_lt_compat.
Qed.

(** The theorem at work: two updates of "A" with the default constant. *)
Lemma UCB1_estimate_not_below_average_witness :
  0 <= 1 /\
  In "A"%string (map fst [("A"%string, 1); ("A"%string, 0)]) /\
  exists optimistic average,
    eval (UCB1.get_reward "A"%string)
      (UCB1_updates [("A"%string, 1); ("A"%string, 0)] (UCB1.init 1)) =
      Return optimistic /\
    eval (MAB.get_reward "A"%string)
      (MAB_updates [("A"%string, 1); ("A"%string, 0)] MAB.init) =
      Return average /\
    average <= optimistic.
Proof.
  assert (B : 0 <= 1) by lra.
  assert (I : In "A"%string (map fst [("A"%string, 1); ("A"%string, 0)])).
  { simpl. auto. }
  split; [exact B|]. split; [exact I|].
  apply (@UCB1_estimate_not_below_average string _ 1 _ "A"%string B I).
Defined.

(** X11.  Arms of a [UCB1] do not interfere, whatever the exploration
    constant and whether the call returns or raises: a call of
    [update_reward] for one arm leaves the estimate and the count of
    every other arm as they were. *)
Theorem UCB1_update_reward_frame :
  forall (A : Type) (E : EqDec A) (b : R) (calls : list (A * R))
         (arm other : A) (reward : R),
    arm <> other ->
    let s := UCB1_updates calls (UCB1.init b) in
    let s' := exec (UCB1.update_reward arm reward) s in
    eval (UCB1.get_reward other) s' = eval (UCB1.get_reward other) s /\
    eval (UCB1.get_arm_count other) s' = eval (UCB1.get_arm_count other) s.
Proof.
  intros A E b calls arm other reward N. cbv zeta.
  destruct (UCB1_holds_updates b calls) as (C & _).
  unfold eval, exec. rewrite UCB1_update_reward_run by assumption.
  unfold UCB1.get_reward, UCB1.get_arm_count, within.
  rewrite !MAB_get_reward_run, !MAB_get_arm_count_run.
  destruct (Rlt_dec _ 0); simpl; unfold entry_R, entry_Z;
    rewrite ?dict_get_set_other by congruence; auto.
Qed.

(** The theorem at work: an update of "A" seen from "B". *)
Lemma UCB1_update_reward_frame_witness :
  "A"%string <> "B"%string /\
  eval (UCB1.get_reward "B"%string)
    (exec (UCB1.update_reward "A"%string 1)
       (UCB1_updates [("B"%string, 1)] (UCB1.init 1))) =
  eval (UCB1.get_reward "B"%string)
    (UCB1_updates [("B"%string, 1)] (UCB1.init 1)).
Proof.
  assert (N : "A"%string <> "B"%string) by discriminate.
  split; [exact N|].
  apply (@UCB1_update_reward_frame string _ 1 [("B"%string, 1)] _ _ 1 N).
Defined.

(** * Further properties of [TS] *)

Section TSMore.
Context {A : Type} `{EqDec A} {G : Type}.
Implicit Types (s : TS.t A G) (arm : A) (calls : list (A * R)).

Lemma alpha_of_total (rewards : list R) :
  alpha_of rewards = 1 + fold_left Rplus rewards 0.
Proof. unfold alpha_of. now rewrite fold_left_Rplus_shift. Qed.

Lemma TS_get_reward_updated (g : G) calls arm :
  updated arm calls = true ->
  let s := TS_updates calls (TS.init g) in
  TS.get_reward arm s =
  (Return ((alpha_of (rewards_of arm calls) - 1) /
           (alpha_of (rewards_of arm calls) - 1 +
            beta_of (rewards_of arm calls) - 1)), s).
Proof.
  intros U s.
  destruct (TS_holds_updates g calls) as (_ & _ & Hs). fold s in Hs.
  specialize (Hs arm). rewrite U in Hs. destruct Hs as (Ec & Ea & Eb).
  unfold TS.get_reward, bind, contains, getitem, truediv, ret, raise,
    dict_mem; simpl.
  rewrite Ec; simpl. rewrite Ea; simpl. rewrite Ea; simpl. rewrite Eb; simpl.
  pose proof (shapes_sum (rewards_of arm calls)) as S.
  pose proof (count_of_updated_pos _ _ U) as P. rewrite count_of_INR in P.
  destruct (Req_dec_T _ 0) as [Z|NZ]; [exfalso; lra | reflexivity].
Qed.

Lemma TS_updates_snoc (g : G) calls arm (reward : R) :
  TS.update_reward arm reward (TS_updates calls (TS.init g)) =
  (Return tt, TS_updates (calls ++ [(arm, reward)]) (TS.init g)).
Proof.
  destruct (TS_holds_updates g calls) as (K & _).
  rewrite TS_update_reward_run by assumption.
  unfold TS_updates at 2. rewrite run_calls_app. simpl. unfold exec.
  fold (TS_updates calls (TS.init g)).
  now rewrite TS_update_reward_run by assumption.
Qed.

Lemma TS_keys (g : G) calls :
  dict_keys (TS.total_count (TS_updates calls (TS.init g))) =
  first_seen (map fst calls).
Proof.
  induction calls as [|[a r] calls IH] using rev_ind; [reflexivity|].
  pose proof (TS_updates_snoc g calls a r) as E.
  destruct (TS_holds_updates g calls) as (K & _).
  rewrite TS_update_reward_run in E by assumption.
  injection E as <-. simpl. rewrite map_app. simpl.
  now apply dict_keys_set_first_seen.
Qed.
End TSMore.

(** X12.  A call of [TS.update_reward], after any history and with any
    real reward, returns without raising. *)
Theorem TS_update_reward_returns :
  forall (A : Type) (E : EqDec A) (G : Type) (g : G) (calls : list (A * R))
         (arm : A) (reward : R),
    TS.update_reward arm reward (TS_updates calls (TS.init g)) =
    (Return tt, TS_updates (calls ++ [(arm, reward)]) (TS.init g)).
Proof.
  intros A E G g calls arm reward. apply TS_updates_snoc.
Qed.

(** X13.  With rewards in {0, 1} the estimate of a [TS] is the sample
    average: for every arm that was updated, [TS.get_reward] returns the
    sum of the rewards of the arm, the number of its rewards 1, divided
    by the number of its updates, the value that [MAB.get_reward] returns
    after the same updates. *)
Theorem TS_estimate_is_sample_average :
  forall (A : Type) (E : EqDec A) (G : Type) (g : G) (calls : list (A * R))
         (arm : A),
    Forall (fun c => snd c = 0 \/ snd c = 1) calls ->
    In arm (map fst calls) ->
    exists posterior average,
      eval (TS.get_reward arm) (TS_updates calls (TS.init g)) =
        Return posterior /\
      eval (MAB.get_reward arm) (MAB_updates calls MAB.init) =
        Return average /\
      posterior = average /\
      average = total_of arm calls / IZR (count_of arm calls) /\
      0 <= total_of arm calls <= IZR (count_of arm calls).
Proof.
  intros A E G g calls arm F I.
  destruct (MAB_reads_after_updates calls arm I) as [Em _].
  apply updated_In in I.
  pose proof (@TS_get_reward_updated _ _ _ g calls arm I) as Run.
  cbv zeta in Run.
  eexists _, _. unfold eval at 1. rewrite Run. simpl.
  split; [reflexivity|]. split; [exact Em|].
  pose proof (shapes_sum (rewards_of arm calls)) as S.
  destruct (shapes_binary (rewards_of_Forall _ arm F)) as [La Lb].
  pose proof (count_of_updated_pos _ _ I) as P.
  rewrite count_of_INR in *. unfold total_of.
  rewrite alpha_of_total in *.
  split; [f_equal; lra|]. split; [reflexivity | lra].
Qed.

(** The theorem at work: rewards 1, 1, 0 for "A". *)
Lemma TS_estimate_is_sample_average_witness :
  Forall (fun c => snd c = 0 \/ snd c = 1)
    [("A", 1); ("A", 1); ("A", 0)]%string /\
  In "A"%string (map fst [("A", 1); ("A", 1); ("A", 0)]%string) /\
  exists posterior average,
    eval (TS.get_reward "A"%string)
      (TS_updates [("A", 1); ("A", 1); ("A", 0)]%string (TS.init tt)) =
      Return posterior /\
    eval (MAB.get_reward "A"%string)
      (MAB_updates [("A", 1); ("A", 1); ("A", 0)]%string MAB.init) =
      Return average /\
    posterior = average.
Proof.
  assert (F : Forall (fun c : string * R => snd c = 0 \/ snd c = 1)
                [("A", 1); ("A", 1); ("A", 0)]%string).
  { repeat (apply Forall_cons; [simpl; auto|]). apply Forall_nil. }
  assert (I : In "A"%string
                (map fst [("A", 1); ("A", 1); ("A", 0)]%string)).
  { simpl. auto. }
  split; [exact F|]. split; [exact I|].
  destruct (@TS_estimate_is_sample_average string _ unit tt _ "A"%string F I)
    as (p & a & Ep & Ea & Eq & _).
  exists p, a. auto.
Defined.

(** X14.  With rewards in {0, 1} the estimate of a [TS] is a proportion:
    [get_reward] of an arm that was updated lies between 0 and 1. *)
Theorem TS_estimate_is_proportion :
  forall (A : Type) (E : EqDec A) (G : Type) (g : G) (calls : list (A * R))
         (arm : A),
    Forall (fun c => snd c = 0 \/ snd c = 1) calls ->
    In arm (map fst calls) ->
    exists est,
      eval (TS.get_reward arm) (TS_updates calls (TS.init g)) = Return est /\
      0 <= est <= 1.
Proof.
  intros A E G g calls arm F I. apply updated_In in I.
  pose proof (@TS_get_reward_updated _ _ _ g calls arm I) as Run.
  cbv zeta in Run. eexists. unfold eval. rewrite Run. simpl.
  split; [reflexivity|].
  pose proof (shapes_sum (rewards_of arm calls)) as S.
  destruct (shapes_binary (rewards_of_Forall _ arm F)) as [La Lb].
  pose proof (count_of_updated_pos _ _ I) as P. rewrite count_of_INR in P.
  apply mean_bounds; lra.
Qed.

(** The theorem at work: rewards 1, 1, 0 for "A". *)
Lemma TS_estimate_is_proportion_witness :
  Forall (fun c : string * R => snd c = 0 \/ snd c = 1)
    [("A", 1); ("A", 1); ("A", 0)]%string /\
  In "A"%string (map fst [("A", 1); ("A", 1); ("A", 0)]%string) /\
  exists est,
    eval (TS.get_reward "A"%string)
      (TS_updates [("A", 1); ("A", 1); ("A", 0)]%string (TS.init tt)) =
    Return est /\ 0 <= est <= 1.
Proof.
  assert (F : Forall (fun c : string * R => snd c = 0 \/ snd c = 1)
                [("A", 1); ("A", 1); ("A", 0)]%string).
  { repeat (apply Forall_cons; [simpl; auto|]). apply Forall_nil. }
  assert (I : In "A"%string
                (map fst [("A", 1); ("A", 1); ("A", 0)]%string)).
  { simpl. auto. }
  split; [exact F|]. split; [exact I|].
  apply (@TS_estimate_is_proportion string _ unit tt _ "A"%string F I).
Defined.

(** X15.  The arms of a [TS] are traversed in the order in which they
    were first updated, each arm once; this is the order in which
    [get_best_arm] draws its samples. *)
Theorem TS_traversal_is_first_update_order :
  forall (A : Type) (E : EqDec A) (G : Type) (g : G) (calls : list (A * R)),
    let s := TS_updates calls (TS.init g) in
    dict_keys (TS.total_count s) = first_seen (map fst calls) /\
    NoDup (dict_keys (TS.total_count s)) /\
    forall arm, In arm (dict_keys (TS.total_count s)) <->
                In arm (map fst calls).
Proof.
  intros A E G g calls s. unfold s. rewrite TS_keys.
  repeat split; auto using first_seen_NoDup; apply first_seen_In.
Qed.

Section TSInterleaved.
Context {A : Type} `{EqDec A} {G : Type} (rnd : random G).
Implicit Types (s : TS.t A G) (arm : A) (calls : list (TS_call A)).

(** One round of the loop of [get_best_arm] either leaves the object as
    it was (it raised before the draw was stored) or stores a draw for
    its arm and a new generator.  *)
Lemma TS_round_shape arm (best : option A * R) s :
  snd (TS.best_arm_round rnd arm best s) = s \/
  exists x g',
    snd (TS.best_arm_round rnd arm best s) =
    TS.Build (TS.total_count s) (TS.alpha s) (TS.beta s)
             (dict_set (TS.last_drawn s) arm x) g'.
Proof.
  destruct s as [ct al be ld g].
  unfold TS.best_arm_round, bind, getitem, setitem, betavariate, load, store,
    ret, raise. simpl.
  destruct (dict_get al arm) as [a|]; simpl; [|now left].
  destruct (dict_get be arm) as [b|]; simpl; [|now left].
  destruct (Rle_dec a 0); simpl; [now left|].
  destruct (Rle_dec b 0); simpl; [now left|].
  unfold bind, load, store, ret. simpl.
  destruct (beta_draw rnd a b g) as [x g']. simpl.
  rewrite dict_get_set_same. right. exists x, g'.
  destruct (Rge_dec x (snd best)); simpl; rewrite ?dict_get_set_same;
    reflexivity.
Qed.

(** The loop writes [last_drawn] and the generator, nothing else, from
    any object and whatever its outcome. *)
Lemma TS_loop_posterior (arms : list A) : forall (best : option A * R) s,
  let s' := snd (for_fold arms best (TS.best_arm_round rnd) s) in
  TS.total_count s' = TS.total_count s /\
  TS.alpha s' = TS.alpha s /\
  TS.beta s' = TS.beta s /\
  forall k, dict_mem (TS.last_drawn s) k = true ->
            dict_mem (TS.last_drawn s') k = true.
Proof.
  induction arms as [|arm arms IH]; intros best s; simpl; [auto|].
  unfold bind.
  pose proof (TS_round_shape arm best s) as Sh.
  destruct (TS.best_arm_round rnd arm best s) as [[best'|e] s1]; simpl in *.
  - specialize (IH best' s1). cbv zeta in IH.
    destruct IH as (Ec & Ea & Eb & El).
    destruct Sh as [->|(x & g' & ->)]; [auto|]. simpl in *.
    repeat split; auto. intros k M. apply El. simpl.
    rewrite dict_mem_set. now destruct (eq_dec k arm).
  - destruct Sh as [->|(x & g' & ->)]; simpl; [auto|].
    repeat split. intros k M.
    rewrite dict_mem_set. now destruct (eq_dec k arm).
Qed.

(** The loop adds no key to [last_drawn] when its arms are keys
    already. *)
Lemma TS_loop_keys (arms : list A) : forall (best : option A * R) s,
  (forall arm, In arm arms -> dict_mem (TS.last_drawn s) arm = true) ->
  forall k,
    dict_mem (TS.last_drawn
                (snd (for_fold arms best (TS.best_arm_round rnd) s))) k =
    dict_mem (TS.last_drawn s) k.
Proof.
  induction arms as [|arm arms IH]; intros best s P k; simpl; [auto|].
  unfold bind.
  pose proof (TS_round_shape arm best s) as Sh.
  assert (Pa : dict_mem (TS.last_drawn s) arm = true) by (apply P; now left).
  assert (Set1 : forall x k', dict_mem (dict_set (TS.last_drawn s) arm x) k' =
                              dict_mem (TS.last_drawn s) k').
  { intros x k'. rewrite dict_mem_set.
    destruct (eq_dec k' arm) as [->|]; auto. }
  destruct (TS.best_arm_round rnd arm best s) as [[best'|e] s1]; simpl in *.
  - rewrite IH.
    + destruct Sh as [->|(x & g' & ->)]; simpl; auto.
    + intros arm' I.
      destruct Sh as [->|(x & g' & ->)]; simpl; [|rewrite Set1];
        apply P; now right.
  - destruct Sh as [->|(x & g' & ->)]; simpl; auto.
Qed.

Lemma TS_get_best_arm_exec s :
  exec (TS.get_best_arm rnd) s =
  snd (for_fold (dict_keys (TS.total_count s)) (None, 0)
         (TS.best_arm_round rnd) s).
Proof.
  unfold exec, TS.get_best_arm. unfold bind at 1. unfold load at 1. simpl.
  unfold bind.
  destruct (for_fold _ _ _ s) as [[[[arm|] x]|e] s1]; reflexivity.
Qed.

Lemma TS_keyed_select s :
  TS_keyed s -> TS_keyed (exec (TS.get_best_arm rnd) s).
Proof.
  intros K. rewrite TS_get_best_arm_exec.
  pose proof (TS_loop_posterior (dict_keys (TS.total_count s)) (None, 0) s)
    as (Ec & Ea & Eb & _).
  pose proof (TS_loop_keys (dict_keys (TS.total_count s)) (None, 0) s) as El.
  intros k. rewrite Ec, Ea, Eb, El.
  - apply K.
  - intros arm I. apply dict_mem_keys in I. destruct (K arm) as (_ & _ & ->).
    exact I.
Qed.

Lemma TS_updates_of_snoc calls (c : TS_call A) :
  TS_updates_of (calls ++ [c]) =
  TS_updates_of calls ++
  match c with TS_update arm reward => [(arm, reward)] | TS_select => [] end.
Proof.
  induction calls as [|[a r|] calls IH]; simpl.
  - destruct c; reflexivity.
  - now rewrite IH.
  - exact IH.
Qed.

Lemma TS_exec_select_ret s :
  exec (TS.get_best_arm rnd ;; ret tt) s = exec (TS.get_best_arm rnd) s.
Proof.
  unfold exec, bind, ret.
  destruct (TS.get_best_arm rnd s) as [[v|e] s1]; reflexivity.
Qed.

(** After updates and selections in any order: the four dictionaries
    have the same keys, and the counts and the shape parameters are those
    that the updates alone lead to. *)
Lemma TS_run_posterior (g : G) calls :
  let s := TS_run rnd calls (TS.init g) in
  let u := TS_updates (TS_updates_of calls) (TS.init g) in
  TS_keyed s /\
  TS.total_count s = TS.total_count u /\
  TS.alpha s = TS.alpha u /\
  TS.beta s = TS.beta u.
Proof.
  induction calls as [|c calls IH] using rev_ind.
  - cbv zeta. simpl. split; [apply TS_keyed_init | auto].
  - cbv zeta in *. destruct IH as (K & Ec & Ea & Eb).
    unfold TS_run in *. rewrite run_calls_app. simpl.
    rewrite TS_updates_of_snoc. destruct c as [arm reward|].
    + simpl TS_call_run. unfold exec at 1 2 3 4.
      rewrite TS_update_reward_run by assumption.
      unfold TS_updates. rewrite run_calls_app. simpl. unfold exec.
      fold (TS_updates (TS_updates_of calls) (TS.init g)).
      destruct (TS_holds_updates g (TS_updates_of calls)) as (Ku & _).
      rewrite TS_update_reward_run by assumption. simpl.
      split; [now apply TS_keyed_updated|].
      now rewrite Ec, Ea, Eb.
    + simpl TS_call_run. rewrite app_nil_r. rewrite TS_exec_select_ret.
      split; [now apply TS_keyed_select|].
      rewrite TS_get_best_arm_exec.
      pose proof (TS_loop_posterior
                    (dict_keys (TS.total_count
                       (run_calls (TS_call_run rnd) calls (TS.init g))))
                    (None, 0)
                    (run_calls (TS_call_run rnd) calls (TS.init g)))
        as (Fc & Fa & Fb & _).
      rewrite Fc, Fa, Fb. auto.
Qed.

(** The reads that only look at the counts and the shape parameters. *)
Lemma TS_reads_posterior (s u : TS.t A G) arm :
  TS.total_count s = TS.total_count u ->
  TS.alpha s = TS.alpha u ->
  TS.beta s = TS.beta u ->
  eval (TS.get_reward arm) s = eval (TS.get_reward arm) u /\
  eval (TS.get_arm_count arm) s = eval (TS.get_arm_count arm) u.
Proof.
  destruct s as [ct al be ld g], u as [ct' al' be' ld' g']. simpl.
  intros -> -> ->.
  unfold eval, TS.get_reward, TS.get_arm_count, bind, contains, getitem,
    truediv, ret, raise. simpl.
  destruct (dict_mem ct' arm); simpl; [|auto].
  split.
  - destruct (dict_get al' arm) eqn:Ea; simpl; [|reflexivity].
    rewrite Ea; simpl.
    destruct (dict_get be' arm); simpl; [|reflexivity].
    now destruct (Req_dec_T _ 0).
  - now destruct (dict_get ct' arm).
Qed.
End TSInterleaved.

(** X16.  [TS.get_best_arm] only writes [last_drawn] and the generator:
    from any object and whatever its outcome it leaves the counts and
    the shape parameters as they were; so after updates and selections
    in any order the counts, the shape parameters, [get_reward] and
    [get_arm_count] are those that the updates alone lead to. *)
Theorem TS_selection_leaves_posterior :
  forall (A : Type) (E : EqDec A) (G : Type) (rnd : random G),
    (forall s : TS.t A G,
        let s' := exec (TS.get_best_arm rnd) s in
        TS.total_count s' = TS.total_count s /\
        TS.alpha s' = TS.alpha s /\
        TS.beta s' = TS.beta s) /\
    (forall (g : G) (calls : list (TS_call A)) (arm : A),
        let s := TS_run rnd calls (TS.init g) in
        let u := TS_updates (TS_updates_of calls) (TS.init g) in
        TS.total_count s = TS.total_count u /\
        TS.alpha s = TS.alpha u /\
        TS.beta s = TS.beta u /\
        eval (TS.get_reward arm) s = eval (TS.get_reward arm) u /\
        eval (TS.get_arm_count arm) s = eval (TS.get_arm_count arm) u).
Proof.
  intros A E G rnd. split.
  - intros s. cbv zeta. rewrite TS_get_best_arm_exec.
    destruct (TS_loop_posterior rnd (dict_keys (TS.total_count s))
                (None, 0) s) as (Ec & Ea & Eb & _).
    auto.
  - intros g calls arm. cbv zeta.
    destruct (TS_run_posterior rnd g calls) as (_ & Ec & Ea & Eb).
    destruct (TS_reads_posterior _ _ arm Ec Ea Eb) as [Er En].
    auto.
Qed.

Section TSLastDrawn.
Context {A : Type} `{EqDec A} {G : Type}.
Implicit Types (s : TS.t A G) (arm : A).

Lemma entry_R_set_self (d : dict A R) arm other :
  entry_R (dict_set d arm (entry_R d arm)) other = entry_R d other.
Proof.
  unfold entry_R. rewrite dict_get_set.
  destruct (eq_dec other arm) as [->|]; reflexivity.
Qed.

Lemma TS_get_last_drawn_value_run s arm :
  TS.get_last_drawn_value arm s =
  (Return (entry_R (TS.last_drawn s) arm), s).
Proof.
  unfold TS.get_last_drawn_value, bind, contains, getitem, ret, entry_R,
    dict_mem. simpl.
  destruct (dict_get (TS.last_drawn s) arm) eqn:E; simpl; now rewrite ?E.
Qed.

Lemma TS_last_drawn_zero (g : G) (calls : list (A * R)) arm :
  entry_R (TS.last_drawn (TS_updates calls (TS.init g))) arm = 0.
Proof.
  induction calls as [|[a r] calls IH] using rev_ind; [reflexivity|].
  pose proof (TS_updates_snoc g calls a r) as E.
  destruct (TS_holds_updates g calls) as (K & _).
  rewrite TS_update_reward_run in E by assumption.
  injection E as <-. simpl. now rewrite entry_R_set_self.
Qed.
End TSLastDrawn.

(** X17.  [TS.update_reward] never changes what
    [get_last_drawn_value] returns, for any arm, after updates and
    selections in any order: the samples of the last selection stay
    until the next one, and a new arm starts at 0, which is also what an
    unknown arm reads as. *)
Theorem TS_update_keeps_last_drawn :
  forall (A : Type) (E : EqDec A) (G : Type) (rnd : random G) (g : G)
         (calls : list (TS_call A)) (arm other : A) (reward : R),
    let s := TS_run rnd calls (TS.init g) in
    eval (TS.update_reward arm reward) s = Return tt /\
    eval (TS.get_last_drawn_value other)
      (exec (TS.update_reward arm reward) s) =
    eval (TS.get_last_drawn_value other) s.
Proof.
  intros A E G rnd g calls arm other reward. cbv zeta.
  destruct (TS_run_posterior rnd g calls) as (K & _).
  unfold eval, exec. rewrite TS_update_reward_run by assumption.
  rewrite !TS_get_last_drawn_value_run. simpl.
  now rewrite entry_R_set_self.
Qed.

(** X18.  Until the first selection [get_last_drawn_value] returns 0 for
    every arm, updated or not. *)
Theorem TS_last_drawn_is_zero_before_selection :
  forall (A : Type) (E : EqDec A) (G : Type) (g : G) (calls : list (A * R))
         (arm : A),
    eval (TS.get_last_drawn_value arm) (TS_updates calls (TS.init g)) =
    Return 0.
Proof.
  intros A E G g calls arm. unfold eval.
  rewrite TS_get_last_drawn_value_run. simpl.
  now rewrite TS_last_drawn_zero.
Qed.

Section TSCorrupt.
Context {A : Type} `{EqDec A} {G : Type} (rnd : random G).
Implicit Types (arm : A).

(** The loop of [get_best_arm] raises when it meets an arm whose [alpha]
    is not positive, if it has not raised before. *)
Lemma TS_loop_raises (arms : list A) : forall ct al be ld g best,
  (forall arm, In arm arms ->
     exists a b, dict_get al arm = Some a /\ dict_get be arm = Some b) ->
  (exists arm, In arm arms /\ shape al arm <= 0) ->
  fst (for_fold arms best (TS.best_arm_round rnd) (TS.Build ct al be ld g)) =
  Raise ValueError.
Proof.
  induction arms as [|arm arms IH]; intros ct al be ld g best P (bad & I & L).
  - destruct I.
  - destruct (P arm (or_introl eq_refl)) as (a & b & Ea & Eb).
    simpl. unfold bind at 1. unfold TS.best_arm_round at 1.
    unfold bind, getitem, setitem, betavariate, load, store, ret, raise.
    repeat first [progress simpl | rewrite Ea | rewrite Eb].
    destruct (Rle_dec a 0) as [La|Na]; [reflexivity|].
    destruct (Rle_dec b 0) as [Lb|Nb]; [reflexivity|].
    unfold bind, load, store, ret; simpl.
    destruct (beta_draw rnd a b g) as [x g']. simpl.
    rewrite dict_get_set_same.
    assert (Tail : exists arm', In arm' arms /\ shape al arm' <= 0).
    { destruct I as [<-|I]; [|eauto].
      exfalso. unfold shape in L. rewrite Ea in L. contradiction. }
    assert (P' : forall arm', In arm' arms ->
              exists a b, dict_get al arm' = Some a /\
                          dict_get be arm' = Some b).
    { intros arm' I'. apply P. now right. }
    destruct (Rge_dec x (snd best)); simpl; rewrite ?dict_get_set_same;
      now apply IH.
Qed.
End TSCorrupt.

(** X19.  Rewards outside the domain make selection fail: if the rewards
    of some updated arm have brought its [alpha] to 0 or below (a single
    reward of -1 does), [TS.get_best_arm] raises [ValueError], for every
    generator. *)
Theorem TS_get_best_arm_rejects_alpha :
  forall (A : Type) (E : EqDec A) (G : Type) (rnd : random G) (g : G)
         (calls : list (A * R)) (arm : A),
    In arm (map fst calls) ->
    alpha_of (rewards_of arm calls) <= 0 ->
    eval (TS.get_best_arm rnd) (TS_updates calls (TS.init g)) =
    Raise ValueError.
Proof.
  intros A E G rnd g calls arm I L.
  pose proof (TS_holds_updates g calls) as Hs.
  set (s := TS_updates calls (TS.init g)) in *.
  assert (Loop : fst (for_fold (dict_keys (TS.total_count s)) (None, 0)
                        (TS.best_arm_round rnd) s) = Raise ValueError).
  { destruct s as [ct al be ld g0] eqn:Es. apply TS_loop_raises.
    - intros arm' I'. apply (TS_keys_updated arm' Hs) in I'.
      apply updated_In in I'. destruct Hs as (_ & _ & Hs).
      specialize (Hs arm'). rewrite I' in Hs. simpl in Hs.
      destruct Hs as (_ & Ea & Eb). eauto.
    - exists arm. split.
      + apply (TS_keys_updated arm Hs). exact I.
      + apply updated_In in I. destruct Hs as (_ & _ & Hs).
        specialize (Hs arm). rewrite I in Hs. simpl in Hs.
        destruct Hs as (_ & Ea & _). unfold shape. now rewrite Ea. }
  unfold eval, TS.get_best_arm. unfold bind at 1. unfold load at 1. simpl.
  unfold bind.
  destruct (for_fold _ _ _ s) as [[v|e] s1]; simpl in *; [discriminate|].
  now injection Loop as ->.
Qed.

(** The theorem at work: one reward of -1 for "A". *)
Lemma TS_get_best_arm_rejects_alpha_witness :
  In "A"%string (map fst [("A"%string, -1)]) /\
  alpha_of (rewards_of "A"%string [("A"%string, -1)]) <= 0 /\
  eval (TS.get_best_arm halves)
    (TS_updates [("A"%string, -1)] (TS.init 0%nat)) = Raise ValueError.
Proof.
  assert (I : In "A"%string (map fst [("A"%string, -1)])).
  { simpl. auto. }
  assert (L : alpha_of (rewards_of "A"%string [("A"%string, -1)]) <= 0).
  { unfold alpha_of, rewards_of. simpl. lra. }
  split; [exact I|]. split; [exact L|].
  apply (@TS_get_best_arm_rejects_alpha string _ nat halves 0%nat _ _ I L).
Defined.

(** * Further properties of [SoftMax] *)

Section SoftMaxMore.
Context {A : Type} `{EqDec A} {G : Type} (rnd : random G).
Implicit Types (s : SoftMax.t A G) (arm : A).

(** The weights that [get_best_arm] hands to [random.choices]. *)
Lemma SoftMax_weights_run s (rewards : list R) :
  SoftMax.tau s <> 0 ->
  (forall est, In est rewards -> exp (est / SoftMax.tau s) <= float_max) ->
  SoftMax.weights rewards s =
  (Return (map (weight (SoftMax.tau s)) rewards), s).
Proof.
  intros T. induction rewards as [|r rewards IH]; intros B; simpl;
    [reflexivity|].
  unfold bind, load, truediv. simpl.
  destruct (Req_dec_T (SoftMax.tau s) 0); [contradiction|].
  unfold ret at 1. rewrite math_exp_run by (apply B; now left).
  rewrite IH by (intros e I; apply B; now right).
  reflexivity.
Qed.


Lemma weight_zero (tau est : R) :
  weight tau est = 0 <-> exp (est / tau) <= float_tiny.
Proof.
  pose proof (exp_pos (est / tau)). unfold weight.
  destruct (Rle_dec (exp (est / tau)) float_tiny); split; intros; lra.
Qed.
End SoftMaxMore.

(** X20.  With a temperature other than 0 and at least one update, when
    [exp (estimate / tau)] is within the range of the floats for every
    estimate, one weight at least is not 0.0, and the total weight is
    within the range: [SoftMax.get_best_arm] hands [random.choices] the
    arms in traversal order with their weights, and returns the arm at
    the index that [random.choices] picks, which is at most the last
    one, together with its stored estimate, which is what [get_reward]
    returns for it; the arm is one that was updated, and only the
    generator changes. *)
Theorem SoftMax_get_best_arm_returns_known_arm :
  forall (A : Type) (E : EqDec A) (G : Type) (rnd : random G) (g : G)
         (tau : R) (calls : list (A * R)),
    let s := SoftMax_updates calls (SoftMax.init tau g) in
    let estimates := MAB.average_reward (SoftMax.base s) in
    let ws := map (weight tau) (dict_values estimates) in
    let i := Nat.min (fst (index_draw rnd ws g))
               (List.length estimates - 1) in
    tau <> 0 ->
    calls <> [] ->
    (forall est, In est (dict_values estimates) ->
                 exp (est / tau) <= float_max) ->
    (exists est, In est (dict_values estimates) /\
                 float_tiny < exp (est / tau)) ->
    sum_R ws <= float_max ->
    exists arm est,
      nth_error estimates i = Some (arm, est) /\
      SoftMax.get_best_arm rnd s =
        (Return (Some arm, Some est),
         SoftMax.Build (SoftMax.base s) tau (snd (index_draw rnd ws g))) /\
      In arm (map fst calls) /\
      eval (SoftMax.get_reward arm) s = Return est.
Proof.
  intros A E G rnd g tau calls. cbv zeta.
  rewrite SoftMax_updates_base. simpl.
  set (base := MAB_updates calls MAB.init).
  set (estimates := MAB.average_reward base).
  set (ws := map (weight tau) (dict_values estimates)).
  intros T NE B P F.
  assert (NEe : estimates <> []).
  { intros En. apply NE. now apply MAB_average_nil. }
  assert (Lw : List.length ws = List.length estimates).
  { unfold ws, dict_values. now rewrite !length_map. }
  assert (Pos : 0 < sum_R ws) by now apply weights_total_pos.
  set (i := Nat.min (fst (index_draw rnd ws g)) (List.length estimates - 1)).
  assert (Ri : (i < List.length estimates)%nat).
  { unfold i. destruct estimates; [congruence|]. simpl. lia. }
  destruct (nth_error estimates i)
    as [[arm est]|] eqn:Nth; [|apply nth_error_None in Nth; lia].
  exists arm, est. split; [reflexivity|].
  assert (In (arm, est) estimates) as Ie by (eapply nth_error_In; eauto).
  assert (Ge : dict_get estimates arm = Some est).
  { apply dict_In_get; [apply MAB_average_NoDup | exact Ie]. }
  assert (Ia : In arm (map fst calls)).
  { destruct (MAB_holds_updates calls) as [_ Hs].
    destruct (Hs arm) as (_ & _ & _ & Ea). fold base estimates in Ea.
    rewrite Ge in Ea. apply updated_In.
    destruct (updated arm calls); [reflexivity | discriminate]. }
  split; [|split; [exact Ia|]].
  - unfold SoftMax.get_best_arm. unfold bind at 1. unfold load at 1. simpl.
    fold base estimates.
    replace (List.length estimates =? 0)%nat with false
      by (destruct estimates; [congruence | reflexivity]).
    unfold bind at 1.
    rewrite SoftMax_weights_run by (simpl; assumption).
    simpl. fold ws.
    unfold choices. unfold dict_keys at 1. rewrite length_map, Lw.
    rewrite Nat.eqb_refl. simpl.
    destruct (dict_keys estimates) as [|first rest] eqn:Keys.
    { destruct estimates; [congruence | discriminate]. }
    fold (sum_R ws).
    destruct (Rle_dec (sum_R ws) 0) as [?|_]; [lra|].
    destruct (Rlt_dec float_max (sum_R ws)) as [?|_]; [lra|].
    unfold bind, load, store, getitem, ret, raise. simpl.
    destruct (index_draw rnd ws g) as [j g'] eqn:Dr. simpl in *.
    assert (Lk : List.length (first :: rest) = List.length estimates).
    { rewrite <- Keys. unfold dict_keys. apply length_map. }
    simpl in Lk.
    replace (List.length rest - 0)%nat with (List.length estimates - 1)%nat
      by lia.
    fold i.
    assert (Na : nth i (first :: rest) first = arm).
    { rewrite <- Keys. unfold dict_keys.
      apply nth_error_nth. rewrite nth_error_map, Nth. reflexivity. }
    simpl in Na. rewrite Na. fold base estimates. rewrite Ge. reflexivity.
  - unfold eval, SoftMax.get_reward, within. simpl.
    rewrite MAB_get_reward_run. simpl. unfold entry_R.
    fold base estimates. now rewrite Ge.
Qed.

(** The theorem at work: two arms, temperature 1, the generator that
    always picks index 0. *)
Lemma SoftMax_get_best_arm_returns_known_arm_witness :
  1 <> 0 /\
  [("A"%string, 1); ("B"%string, 0)] <> [] /\
  exists arm est,
    eval (SoftMax.get_best_arm halves)
      (SoftMax_updates [("A"%string, 1); ("B"%string, 0)]
         (SoftMax.init 1 0%nat)) = Return (Some arm, Some est) /\
    In arm (map fst [("A"%string, 1); ("B"%string, 0)]).
Proof.
  assert (T : 1 <> 0) by lra.
  assert (N : [("A"%string, 1); ("B"%string, 0)] <> []) by discriminate.
  split; [exact T|]. split; [exact N|].
  destruct (@SoftMax_get_best_arm_returns_known_arm string _ nat halves
              0%nat 1 _ T N) as (arm & est & _ & Run & I & _).
  - rewrite SoftMax_two_arms_from. simpl. intros est [<-|[<-|[]]].
    + replace ((0 + 1) / 1 / 1) with 1 by lra. apply exp_1_in_range.
    + replace ((0 + 0) / 1 / 1) with 0 by lra. apply exp_0_in_range.
  - rewrite SoftMax_two_arms_from. exists ((0 + 1) / 1). split.
    + simpl. now left.
    + replace ((0 + 1) / 1 / 1) with 1 by lra. apply exp_1_in_range.
  - rewrite SoftMax_two_arms_from. apply two_weights_in_range.
  - exists arm, est. unfold eval. rewrite Run. auto.
Defined.

(** X21.  With temperature 0, once an arm has been updated,
    [SoftMax.get_best_arm] and [SoftMax.get_prob_list] both raise
    [ZeroDivisionError] and leave the object as it was; before any
    update they return (None, None) and the empty mapping. *)
Theorem SoftMax_zero_temperature :
  forall (A : Type) (E : EqDec A) (G : Type) (rnd : random G) (g : G)
         (calls : list (A * R)),
    let s := SoftMax_updates calls (SoftMax.init 0 g) in
    match calls with
    | [] =>
        SoftMax.get_best_arm rnd s = (Return (None, None), s) /\
        SoftMax.get_prob_list s = (Return [], s)
    | _ :: _ =>
        SoftMax.get_best_arm rnd s = (Raise ZeroDivisionError, s) /\
        SoftMax.get_prob_list s = (Raise ZeroDivisionError, s)
    end.
Proof.
  intros A E G rnd g calls. cbv zeta.
  destruct calls as [|c calls]; [split; reflexivity|].
  rewrite SoftMax_updates_base. simpl SoftMax.base. simpl SoftMax.tau.
  simpl SoftMax.gen.
  set (base := MAB_updates (c :: calls) MAB.init).
  assert (NE : MAB.average_reward base <> []).
  { intros En. unfold base in En.
    apply (proj1 (MAB_average_nil (c :: calls))) in En. discriminate En. }
  destruct (MAB.average_reward base) as [|[arm est] items] eqn:Items;
    [congruence|].
  split.
  - unfold SoftMax.get_best_arm. unfold bind at 1. unfold load at 1. simpl.
    rewrite Items. simpl.
    unfold bind, load, truediv, raise. simpl.
    destruct (Req_dec_T 0 0); [reflexivity | congruence].
  - unfold SoftMax.get_prob_list. unfold bind at 1. unfold load at 1. simpl.
    rewrite Items. simpl.
    unfold bind, load, truediv, raise. simpl.
    destruct (Req_dec_T 0 0); [reflexivity | congruence].
Qed.




(** * [SoftMax] outside the range of the floats *)

Section SoftMaxRange.
Context {A : Type} `{EqDec A} {G : Type} (rnd : random G).
Implicit Types (s : SoftMax.t A G) (arm : A).



Lemma weights_vanish (tau : R) (ests : list R) :
  (forall est, In est ests -> exp (est / tau) <= float_tiny) ->
  forall w, In w (map (weight tau) ests) -> w = 0.
Proof.
  intros V w I. apply in_map_iff in I. destruct I as (est & <- & I).
  apply weight_zero, V, I.
Qed.
End SoftMaxRange.



(** X27.  With a temperature other than 0 and at least one update, when
    [exp (estimate / tau)] is too small for a float for every known arm,
    every weight is 0.0: [SoftMax.get_prob_list] raises
    [ZeroDivisionError] when it divides by their sum, and
    [SoftMax.get_best_arm] raises the [ValueError] with which
    [random.choices] rejects a total weight of zero; both leave the
    object as it was. *)
Theorem SoftMax_vanishing_weights_raise :
  forall (A : Type) (E : EqDec A) (G : Type) (rnd : random G) (g : G)
         (tau : R) (calls : list (A * R)),
    let s := SoftMax_updates calls (SoftMax.init tau g) in
    let estimates := MAB.average_reward (SoftMax.base s) in
    tau <> 0 ->
    calls <> [] ->
    (forall est, In est (dict_values estimates) ->
                 exp (est / tau) <= float_tiny) ->
    SoftMax.get_prob_list s = (Raise ZeroDivisionError, s) /\
    SoftMax.get_best_arm rnd s = (Raise ValueError, s).
Proof.
  intros A E G rnd g tau calls. cbv zeta.
  rewrite SoftMax_updates_base. simpl.
  set (base := MAB_updates calls MAB.init).
  set (estimates := MAB.average_reward base).
  intros T NE V.
  assert (NEe : estimates <> []).
  { intros En. apply NE. now apply MAB_average_nil. }
  assert (B : forall est, In est (dict_values estimates) ->
                          exp (est / tau) <= float_max).
  { intros est I. apply V in I.
    pose proof float_tiny_lt_1. pose proof float_max_ge_4. lra. }
  assert (Z : sum_R (map (weight tau) (dict_values estimates)) = 0).
  { apply sum_R_zeros. now apply weights_vanish. }
  assert (ND : NoDup (dict_keys estimates)) by apply MAB_average_NoDup.
  assert (F : ~ float_max < 0) by (pose proof float_max_ge_4; lra).
  split.
  - unfold SoftMax.get_prob_list. unfold bind at 1. unfold load at 1. simpl.
    fold base estimates.
    replace (negb (List.length estimates =? 0)%nat) with true
      by (destruct estimates; [congruence | reflexivity]).
    pose proof (@prob_list_weigh_loop A E G (SoftMax.Build base tau g)
                  estimates [] 0 T B ND) as L.
    simpl SoftMax.tau in L. rewrite app_nil_l in L.
    fold (sum_R (map (weight tau) (dict_values estimates))) in L.
    rewrite Z in L.
    unfold bind at 1. unfold dict in *. rewrite L.
    clear L Z B V ND. clearbody estimates.
    destruct estimates as [|[arm est] items]; [congruence|].
    simpl. unfold bind at 1. unfold SoftMax.prob_list_scale at 1.
    unfold lookup. simpl. rewrite eq_dec_refl.
    unfold bind, ret, truediv, raise.
    destruct (Rlt_dec float_max 0) as [?|_]; [contradiction|].
    destruct (Req_dec_T 0 0) as [_|?]; [reflexivity | congruence].
  - unfold SoftMax.get_best_arm. unfold bind at 1. unfold load at 1. simpl.
    fold base estimates.
    replace (List.length estimates =? 0)%nat with false
      by (destruct estimates; [congruence | reflexivity]).
    unfold bind at 1.
    rewrite SoftMax_weights_run by (simpl; assumption).
    simpl SoftMax.tau.
    unfold choices. unfold dict_keys at 1. unfold dict_values at 1.
    rewrite !length_map. rewrite Nat.eqb_refl. simpl.
    destruct (dict_keys estimates) as [|first rest] eqn:Keys.
    { destruct estimates; [congruence | discriminate]. }
    fold (sum_R (map (weight tau) (dict_values estimates))). rewrite Z.
    unfold raise.
    destruct (Rle_dec 0 0) as [_|?]; [reflexivity | lra].
Qed.

(** The theorem at work: one arm with estimate -2000 at temperature 1. *)
Lemma SoftMax_vanishing_weights_raise_witness :
  1 <> 0 /\
  [("A"%string, - 2000)] <> [] /\
  SoftMax.get_best_arm halves
    (SoftMax_updates [("A", - 2000)]%string (SoftMax.init 1 0%nat)) =
  (Raise ValueError,
   SoftMax_updates [("A", - 2000)]%string (SoftMax.init 1 0%nat)).
Proof.
  assert (T : 1 <> 0) by lra.
  assert (N : [("A"%string, - 2000)] <> []) by discriminate.
  split; [exact T|]. split; [exact N|].
  refine (proj2 (@SoftMax_vanishing_weights_raise string _ nat halves 0%nat 1
                   [("A", - 2000)]%string T N _)).
  rewrite SoftMax_one_arm_from. simpl. intros est [<-|[]].
  replace ((0 + - 2000) / 1 / 1) with (- 2000) by lra.
  apply exp_minus_2000_vanishes.
Defined.


(** * Further properties of [CMAB] *)

Section Routing.
Context {A : Type} `{EqDec A} {C : Type} `{EqDec C}.
Implicit Types (s : CMAB.t A C) (arm : A) (x : C)
  (calls : list (A * R * C)).

Lemma CMAB_update_reward_run s arm (reward : R) x :
  CMAB.update_reward arm reward x s =
  (eval (UCB1.update_reward arm reward) (instance_of s x),
   CMAB.Build (dict_set (CMAB.mab s) x
                 (exec (UCB1.update_reward arm reward) (instance_of s x)))).
Proof.
  destruct s as [m].
  unfold CMAB.update_reward, instance_of, eval, exec, bind, contains,
    setitem, call_item, ret, dict_mem. simpl.
  destruct (dict_get m x) as [obj|] eqn:Gx; simpl.
  - rewrite Gx. now destruct (UCB1.update_reward arm reward obj).
  - rewrite dict_get_set_same.
    destruct (UCB1.update_reward arm reward UCB1.default). simpl.
    now rewrite dict_set_set.
Qed.

Lemma calls_under_snoc x calls arm (reward : R) y :
  calls_under x (calls ++ [(arm, reward, y)]) =
  calls_under x calls ++ (if eq_dec y x then [(arm, reward)] else []).
Proof.
  unfold calls_under. rewrite filter_app, map_app. simpl.
  now destruct (eq_dec y x).
Qed.

Lemma calls_under_nil x calls :
  calls_under x calls = [] <-> ~ In x (map snd calls).
Proof.
  unfold calls_under. induction calls as [|[[a r] y] calls IH]; simpl.
  - tauto.
  - destruct (eq_dec y x) as [->|N]; simpl.
    + split; [discriminate | tauto].
    + rewrite IH. tauto.
Qed.

(** What is stored under each context after a history. *)
Lemma CMAB_instances calls x :
  dict_get (CMAB.mab (CMAB_updates calls CMAB.init)) x =
  match calls_under x calls with
  | [] => None
  | _ :: _ => Some (UCB1_updates (calls_under x calls) UCB1.default)
  end.
Proof.
  induction calls as [|[[a r] y] calls IH] using rev_ind; [reflexivity|].
  unfold CMAB_updates in *. rewrite run_calls_app. simpl.
  unfold exec at 1. rewrite CMAB_update_reward_run. simpl.
  rewrite dict_get_set, calls_under_snoc.
  destruct (eq_dec x y) as [->|N].
  - rewrite eq_dec_refl. unfold instance_of. rewrite IH.
    destruct (calls_under y calls) as [|c cs] eqn:Eu; [reflexivity|].
    simpl app. f_equal.
    change (c :: cs ++ [(a, r)]) with ((c :: cs) ++ [(a, r)]).
    unfold UCB1.default. now rewrite UCB1_updates_snoc.
  - rewrite eq_dec_neq, app_nil_r by congruence. exact IH.
Qed.

Lemma CMAB_instance_of calls x :
  instance_of (CMAB_updates calls CMAB.init) x =
  UCB1_updates (calls_under x calls) UCB1.default.
Proof.
  unfold instance_of. rewrite CMAB_instances.
  now destruct (calls_under x calls).
Qed.

Lemma CMAB_keys calls :
  dict_keys (CMAB.mab (CMAB_updates calls CMAB.init)) =
  first_seen (map snd calls).
Proof.
  induction calls as [|[[a r] y] calls IH] using rev_ind; [reflexivity|].
  unfold CMAB_updates in *. rewrite run_calls_app. simpl.
  unfold exec at 1. rewrite CMAB_update_reward_run. simpl.
  rewrite map_app. simpl. now apply dict_keys_set_first_seen.
Qed.
End Routing.

(** X23.  [CMAB] routes by context: after any history, what is stored
    under a context is the [UCB1] (default constant) that the updates
    made under that context, in order, lead to, and nothing is stored
    under a context that was never updated; [update_reward],
    [get_reward] and [get_best_arm] under a context have the outcome of
    the same call on that [UCB1], and the two reads leave the object as
    it was. *)
Theorem CMAB_routes_by_context :
  forall (A : Type) (EA : EqDec A) (C : Type) (EC : EqDec C)
         (calls : list (A * R * C)) (x : C) (arm : A) (reward : R),
    let s := CMAB_updates calls CMAB.init in
    let u := UCB1_updates (calls_under x calls) UCB1.default in
    dict_get (CMAB.mab s) x =
      match calls_under x calls with [] => None | _ :: _ => Some u end /\
    eval (CMAB.update_reward arm reward x) s =
      eval (UCB1.update_reward arm reward) u /\
    CMAB.get_reward arm x s = (eval (UCB1.get_reward arm) u, s) /\
    CMAB.get_best_arm x s = (eval UCB1.get_best_arm u, s).
Proof.
  intros A EA C EC calls x arm reward. cbv zeta.
  pose proof (CMAB_instances calls x) as Gx.
  pose proof (CMAB_instance_of calls x) as Ix.
  split; [exact Gx|]. split.
  - unfold eval at 1. rewrite CMAB_update_reward_run. simpl. now rewrite Ix.
  - set (s := CMAB_updates calls CMAB.init) in *.
    unfold CMAB.get_reward, CMAB.get_best_arm, bind, contains, call_item,
      ret, dict_mem, eval. simpl.
    destruct (calls_under x calls) as [|c cs] eqn:Eu.
    + rewrite Gx. simpl. split; reflexivity.
    + rewrite Gx. simpl. rewrite Gx.
      set (u := UCB1_updates (c :: cs) UCB1.default) in *.
      assert (Pure : forall (X : Type) (m : py (MAB.t A) X) (o : outcome X),
                 m (UCB1.base u) = (o, UCB1.base u) ->
                 within UCB1.base_f m u = (o, u)).
      { intros X m o Em. unfold within. simpl. rewrite Em.
        now destruct u. }
      assert (Keep : dict_set (CMAB.mab s) x u = CMAB.mab s)
        by now apply dict_set_get.
      unfold UCB1.get_reward, UCB1.get_best_arm.
      rewrite (Pure _ _ _ (MAB_get_reward_run (UCB1.base u) arm)).
      assert (Eb : MAB.get_best_arm (UCB1.base u) =
                   (fst (MAB.get_best_arm (UCB1.base u)), UCB1.base u)).
      { unfold MAB.get_best_arm, bind, load, ret. simpl.
        now destruct (MAB.average_reward (UCB1.base u)). }
      rewrite (Pure _ _ _ Eb). simpl. rewrite Keep.
      destruct s. split; reflexivity.
Qed.

(** X24.  The contexts of a [CMAB] are created on their first update and
    stay: after any history the keys of the dictionary of contexts are
    the contexts that were updated, each once, in the order of their
    first update. *)
Theorem CMAB_contexts_are_first_update_order :
  forall (A : Type) (EA : EqDec A) (C : Type) (EC : EqDec C)
         (calls : list (A * R * C)),
    let s := CMAB_updates calls CMAB.init in
    dict_keys (CMAB.mab s) = first_seen (map snd calls) /\
    NoDup (dict_keys (CMAB.mab s)) /\
    forall x, dict_mem (CMAB.mab s) x = true <-> In x (map snd calls).
Proof.
  intros A EA C EC calls s. unfold s.
  split; [apply CMAB_keys|]. rewrite CMAB_keys.
  split; [apply first_seen_NoDup|].
  intros x. rewrite dict_mem_keys, CMAB_keys. apply first_seen_In.
Qed.

(** * [UCB1.get_best_arm] *)

Section UCB1BestArm.
Context {A : Type} `{EqDec A}.
Implicit Types (arm : A) (calls : list (A * R)).

(** The estimates of a [UCB1] are keyed by the arms in the order of
    their first update, whatever the constant: the first update of an
    arm never raises. *)
Lemma UCB1_average_keys (b : R) calls :
  dict_keys (UCB1_average (UCB1_updates calls (UCB1.init b))) =
  first_seen (map fst calls).
Proof.
  induction calls as [|[a r] calls IH] using rev_ind; [reflexivity|].
  rewrite UCB1_updates_snoc, map_app. simpl. unfold exec.
  destruct (UCB1_holds_updates b calls) as (C & Eb & _ & Hc).
  rewrite UCB1_update_reward_run by assumption. rewrite Eb, Hc.
  destruct (Rlt_dec _ 0) as [L|G]; simpl.
  - unfold UCB1_average in *. simpl. rewrite first_seen_snoc.
    destruct (in_dec eq_dec a (map fst calls)) as [I|N]; [exact IH|].
    exfalso.
    rewrite (count_of_not_updated _ _ (updated_not_In _ _ N)) in L.
    unfold UCB1_radicand in L. simpl in L. rewrite ln_1 in L. lra.
  - unfold UCB1_average in *. simpl. now apply dict_keys_set_first_seen.
Qed.

(** [MAB.get_best_arm] on any object with at least one estimate. *)
Lemma MAB_get_best_arm_run (base : MAB.t A) :
  MAB.average_reward base <> [] ->
  NoDup (dict_keys (MAB.average_reward base)) ->
  exists arm est,
    MAB.get_best_arm base = (Return (Some arm, Some est), base) /\
    dict_get (MAB.average_reward base) arm = Some est /\
    first_greatest (MAB.average_reward base) (arm, est).
Proof.
  intros NE ND. unfold MAB.get_best_arm, bind, load, ret. simpl.
  destruct (MAB.average_reward base) as [|first rest] eqn:Items;
    [congruence|].
  pose proof (max_by_value_first_greatest first rest) as FG.
  set (best := MAB.max_by_value first rest) in *.
  exists (fst best), (snd best). split; [reflexivity|].
  assert (I : In best (first :: rest)).
  { destruct FG as (l1 & l2 & -> & _). apply in_or_app. simpl; auto. }
  split; [|now destruct best].
  apply dict_In_get; auto. now destruct best.
Qed.
End UCB1BestArm.

(** X25.  [UCB1.get_best_arm] after any history, for every exploration
    constant: with no update it returns (None, None); otherwise it
    returns an arm that was updated, with the estimate that [get_reward]
    returns for it, which is the greatest stored estimate, and among
    equal estimates the arm first updated earliest; the estimates are
    traversed in the order of the first updates, and the call leaves the
    object as it was. *)
Theorem UCB1_get_best_arm_first_greatest :
  forall (A : Type) (E : EqDec A) (b : R) (calls : list (A * R)),
    let s := UCB1_updates calls (UCB1.init b) in
    dict_keys (UCB1_average s) = first_seen (map fst calls) /\
    match calls with
    | [] => UCB1.get_best_arm s = (Return (None, None), s)
    | _ :: _ =>
        exists arm est,
          UCB1.get_best_arm s = (Return (Some arm, Some est), s) /\
          In arm (map fst calls) /\
          eval (UCB1.get_reward arm) s = Return est /\
          first_greatest (UCB1_average s) (arm, est)
    end.
Proof.
  intros A E b calls. cbv zeta.
  pose proof (UCB1_average_keys b calls) as Keys.
  split; [exact Keys|].
  destruct calls as [|c calls]; [reflexivity|].
  set (s := UCB1_updates (c :: calls) (UCB1.init b)) in *.
  assert (NE : MAB.average_reward (UCB1.base s) <> []).
  { intros En. unfold UCB1_average in Keys. rewrite En in Keys.
    simpl in Keys. discriminate. }
  assert (ND : NoDup (dict_keys (MAB.average_reward (UCB1.base s)))).
  { unfold UCB1_average in Keys. rewrite Keys. apply first_seen_NoDup. }
  destruct (MAB_get_best_arm_run (UCB1.base s) NE ND)
    as (arm & est & Run & Ge & FG).
  exists arm, est. split; [|split; [|split]].
  - unfold UCB1.get_best_arm, within. simpl. rewrite Run. now destruct s.
  - apply dict_get_In in Ge.
    apply (in_map fst) in Ge. simpl in Ge.
    fold (dict_keys (MAB.average_reward (UCB1.base s))) in Ge.
    unfold UCB1_average in Keys. rewrite Keys in Ge.
    exact (proj1 (first_seen_In _ _) Ge).
  - unfold eval, UCB1.get_reward, within. rewrite MAB_get_reward_run.
    simpl. unfold entry_R. now rewrite Ge.
  - exact FG.
Qed.
